(** * terrafs: the path-resolution and caching engine of [src/terrafs.cpp]

    A shallow embedding of the directory-index parser ([DirIndex]), the
    transport wrapper ([Curlie]) and the filesystem object ([TerraFs]) with
    its listing cache, together with the properties of the engine.

    Conventions of the embedding.
    - [std::string] is [string]; [std::vector<string>] is [list string];
      [std::map<const string, DirIndex_ptr>] is [gmap string (option DirIndex.t)],
      a null [shared_ptr] being [None].
    - Machine integers are [Z] with the conversions of an LP64 Linux target
      written out: [unsigned] is 32 bits, [size_t] 64 bits, [long] and [off_t]
      64 bits signed, [int] 32 bits signed.
    - Undefined behaviour (an index past the end of a vector, a dangling
      handle, a copy outside the source buffer) and an exception that nothing
      catches both end the request: they are the [Fault] results.
    - The network is an oracle that maps the history of requests and a URL to
      the outcome of the transfer. *)

From Stdlib Require Import ZArith Lia Ascii.
From stdpp Require Import base option list strings gmap fin_maps.

Local Open Scope Z_scope.

(** ** Results of fallible code *)

Inductive fault : Type :=
| IndexPastEnd      (* operator[] beyond size(): undefined behaviour *)
| InvalidArgument   (* std::invalid_argument thrown by stol *)
| OutOfRange        (* std::out_of_range thrown by stol *)
| DanglingHandle    (* fi->fh does not point to a live string *)
| CopyOutOfBounds.  (* memcpy reads beyond the source string *)

Inductive res (A : Type) : Type :=
| Ok (a : A)
| Fault (f : fault).
Arguments Ok {A} a.
Arguments Fault {A} f.

Definition res_bind {A B} (f : A → res B) (r : res A) : res B :=
  match r with
  | Ok a => f a
  | Fault e => Fault e
  end.

#[global] Instance res_ret : MRet res := @Ok.
#[global] Instance res_mbind : MBind res := @res_bind.

Definition is_Ok {A} (r : res A) : Prop := ∃ a, r = Ok a.

(** ** Integer conversions (LP64) *)

Definition to_unsigned (z : Z) : Z := z mod 2 ^ 32.
Definition to_size_t (z : Z) : Z := z mod 2 ^ 64.
Definition to_int (z : Z) : Z := (z + 2 ^ 31) mod 2 ^ 32 - 2 ^ 31.
Definition LONG_MIN : Z := - 2 ^ 63.
Definition LONG_MAX : Z := 2 ^ 63 - 1.
Definition INT_MAX : Z := 2 ^ 31 - 1.

(** ** Strings *)

Definition nl : ascii := "010"%char.
Definition colon : ascii := ":"%char.
Definition slash : ascii := "/"%char.

Fixpoint take_str (n : nat) (s : string) : string :=
  match n, s with
  | S n', String c s' => String c (take_str n' s')
  | _, _ => EmptyString
  end.

Fixpoint drop_str (n : nat) (s : string) : string :=
  match n, s with
  | S n', String _ s' => drop_str n' s'
  | _, _ => s
  end.

(** [s.substr(pos, count)] for [pos <= s.size()], the count clipped at the
    end of the string; [s.substr(pos)] is [drop_str pos s]. *)
Definition substr (s : string) (pos count : nat) : string :=
  take_str count (drop_str pos s).

(** [s.find_last_of(c)]: the index of the last occurrence, [None] for npos. *)
Fixpoint find_last_of (s : string) (c : ascii) : option nat :=
  match s with
  | EmptyString => None
  | String a s' =>
      match find_last_of s' c with
      | Some i => Some (S i)
      | None => if decide (a = c) then Some 0%nat else None
      end
  end.

Fixpoint occurs (c : ascii) (s : string) : Prop :=
  match s with
  | EmptyString => False
  | String a s' => a = c ∨ occurs c s'
  end.

(** The characters [std::getline] extracts from the unread characters [s]:
    the item up to the delimiter or the end, and the unread rest (the
    delimiter is extracted and dropped). *)
Fixpoint getline_chars (s : string) (delim : ascii) : string * string :=
  match s with
  | EmptyString => (EmptyString, EmptyString)
  | String a s' =>
      if decide (a = delim) then (EmptyString, s')
      else let '(item, rest) := getline_chars s' delim in (String a item, rest)
  end.

(** One call of [std::getline(stream, item, delim)]: [None] when nothing is
    left to extract (the stream fails and the loop ends). *)
Definition getline (s : string) (delim : ascii) : option (string * string) :=
  match s with
  | EmptyString => None
  | _ => Some (getline_chars s delim)
  end.

(** [split(s, delim)]: the items of [while (getline(ss, item, delim))
    elems.push_back(item)].  The loop is unfolded along the characters of
    [s]; [split_unfold] below gives it back as the loop over [getline]. *)
Fixpoint split (s : string) (delim : ascii) : list string :=
  match s with
  | EmptyString => []
  | String a s' =>
      if decide (a = delim) then EmptyString :: split s' delim
      else match split s' delim with
           | [] => [String a EmptyString]
           | item :: elems => String a item :: elems
           end
  end.

(** *** [std::stol] in base 10 *)

Definition isspace (c : ascii) : bool :=
  let n := nat_of_ascii c in
  ((9 <=? n) && (n <=? 13) || (n =? 32))%nat.

Definition digit (c : ascii) : option Z :=
  let n := nat_of_ascii c in
  if ((48 <=? n) && (n <=? 57))%nat then Some (Z.of_nat n - 48) else None.

Fixpoint skip_spaces (s : string) : string :=
  match s with
  | String c s' => if isspace c then skip_spaces s' else s
  | EmptyString => s
  end.

(** The value of the longest prefix of digits, continuing from [acc]. *)
Fixpoint read_digits (s : string) (acc : Z) : Z :=
  match s with
  | String c s' =>
      match digit c with
      | Some d => read_digits s' (10 * acc + d)
      | None => acc
      end
  | EmptyString => acc
  end.

Definition starts_with_digit (s : string) : bool :=
  match s with
  | String c _ => bool_decide (is_Some (digit c))
  | EmptyString => false
  end.

Definition strip_sign (s : string) : bool * string :=
  match s with
  | String "-"%char r => (true, r)
  | String "+"%char r => (false, r)
  | _ => (false, s)
  end.

Definition stol (s : string) : res Z :=
  let '(neg, body) := strip_sign (skip_spaces s) in
  if starts_with_digit body then
    let v := if neg : bool then - read_digits body 0 else read_digits body 0 in
    if (LONG_MIN <=? v) && (v <=? LONG_MAX) then Ok v else Fault OutOfRange
  else Fault InvalidArgument.

(** [v[i]] on a vector: reading past the end is undefined behaviour. *)
Definition vec_at (v : list string) (i : nat) : res string :=
  match v !! i with
  | Some x => Ok x
  | None => Fault IndexPastEnd
  end.

(** ** Directory index entries *)

Inductive DirIndexEntry : Type :=
| FileDirIndexEntry (name : string) (size : Z)
| DirDirIndexEntry (name : string).

#[global] Instance DirIndexEntry_eq_dec : EqDecision DirIndexEntry.
Proof. solve_decision. Defined.

Definition getName (e : DirIndexEntry) : string :=
  match e with
  | FileDirIndexEntry name _ => name
  | DirDirIndexEntry name => name
  end.

(** The constructors read [data[1]] and, for a file, [stol(data[3])]
    converted to [unsigned]; the base class is initialised first. *)
Definition new_DirDirIndexEntry (data : list string) : res DirIndexEntry :=
  name ← vec_at data 1;
  mret (DirDirIndexEntry name).

Definition new_FileDirIndexEntry (data : list string) : res DirIndexEntry :=
  name ← vec_at data 1;
  d3 ← vec_at data 3;
  size ← stol d3;
  mret (FileDirIndexEntry name (to_unsigned size)).

(** ** The directory index *)

Module DirIndex.

(** [version] has no initialiser: it holds a value only after a version
    line was read. *)
Record t : Type := mk {
  version : option Z;
  path : string;
  entries : list DirIndexEntry
}.

Definition getEntries (d : t) : list DirIndexEntry := entries d.

Definition empty : t := {| version := None; path := EmptyString; entries := [] |}.

(** The body of the loop of the constructor, for one line. *)
Definition parse_line (d : t) (line : string) : res t :=
  let tokens := split line colon in
  t0 ← vec_at tokens 0;
  if decide (t0 = "version") then
    t1 ← vec_at tokens 1;
    v ← stol t1;
    mret {| version := Some (to_unsigned v); path := path d; entries := entries d |}
  else if decide (t0 = "path") then
    p ← (if decide (2 < length tokens)%nat then vec_at tokens 1 else mret EmptyString);
    mret {| version := version d; path := p; entries := entries d |}
  else if decide (t0 = "d") then
    e ← new_DirDirIndexEntry tokens;
    mret {| version := version d; path := path d; entries := entries d ++ [e] |}
  else if decide (t0 = "f") then
    e ← new_FileDirIndexEntry tokens;
    mret {| version := version d; path := path d; entries := entries d ++ [e] |}
  else mret d.

Fixpoint parse_lines (d : t) (lines : list string) : res t :=
  match lines with
  | [] => mret d
  | line :: rest => d' ← parse_line d line; parse_lines d' rest
  end.

(** [DirIndex::DirIndex(data)] *)
Definition parse (data : string) : res t :=
  parse_lines empty (split data nl).

(** [DirIndex::find(name)] *)
Fixpoint find_in (es : list DirIndexEntry) (name : string) : option DirIndexEntry :=
  match es with
  | [] => None
  | e :: rest => if decide (getName e = name) then Some e else find_in rest name
  end.

Definition find (d : t) (name : string) : option DirIndexEntry :=
  find_in (entries d) name.

End DirIndex.


(** ** Platform constants (<sys/stat.h>, <fcntl.h>, <errno.h> on Linux) *)

Definition octal (a b c : Z) : Z := a * 64 + b * 8 + c.

Definition S_IFMT : Z := 61440.    (* 0170000 *)
Definition S_IFDIR : Z := 16384.   (* 0040000 *)
Definition S_IFREG : Z := 32768.   (* 0100000 *)
Definition S_IRUSR : Z := octal 4 0 0.
Definition S_IXUSR : Z := octal 1 0 0.
Definition S_IRGRP : Z := octal 0 4 0.
Definition S_IXGRP : Z := octal 0 1 0.
Definition S_IROTH : Z := octal 0 0 4.
Definition S_IXOTH : Z := octal 0 0 1.
Definition O_RDONLY : Z := 0.
Definition ENOENT : Z := 2.
Definition EACCES : Z := 13.

Record stat : Type := mkStat {
  st_mode : Z;
  st_nlink : Z;
  st_size : Z
}.

(** [memset(&st, 0, sizeof(st))] *)
Definition zero_stat : stat := {| st_mode := 0; st_nlink := 0; st_size := 0 |}.

Record fuse_file_info : Type := mkFi {
  flags : Z;
  fh : Z
}.

(** ** The transport *)

Inductive CurlOutcome : Type :=
| InitFailed                          (* curl_easy_init returned NULL *)
| PerformFailed (received : string)   (* curl_easy_perform != CURLE_OK *)
| Completed (responseCode : Z) (received : string).

(** ** The state of the process

    The [TerraFs] object ([baseUrl], [staticRoot], [dirIndexCache]), the
    strings allocated with [new] for the open files ([heap], by address), and
    the URLs [Curlie::getFile] was called with so far ([requests]). *)
Record State : Type := mkState {
  baseUrl : string;
  staticRoot : bool;
  dirIndexCache : gmap string (option DirIndex.t);
  heap : gmap Z string;
  requests : list string
}.

Definition set_dirIndexCache (c : gmap string (option DirIndex.t)) (st : State) : State :=
  {| baseUrl := baseUrl st; staticRoot := staticRoot st; dirIndexCache := c;
     heap := heap st; requests := requests st |}.

Definition set_heap (h : gmap Z string) (st : State) : State :=
  {| baseUrl := baseUrl st; staticRoot := staticRoot st;
     dirIndexCache := dirIndexCache st; heap := h; requests := requests st |}.

Definition set_requests (r : list string) (st : State) : State :=
  {| baseUrl := baseUrl st; staticRoot := staticRoot st;
     dirIndexCache := dirIndexCache st; heap := heap st; requests := r |}.

(** [TerraFs::TerraFs(base, stRoot)] in a fresh process. *)
Definition new_TerraFs (base : option string) (stRoot : bool) : State :=
  {| baseUrl := default "http://flightgear.sourceforge.net/scenery" base;
     staticRoot := stRoot; dirIndexCache := ∅; heap := ∅; requests := [] |}.

(** ** The monad of the member functions: state and faults *)

Definition M (A : Type) : Type := State → res A * State.

#[global] Instance M_ret : MRet M := λ A a st, (Ok a, st).
#[global] Instance M_bind : MBind M := λ A B f m st,
  match m st with
  | (Ok a, st') => f a st'
  | (Fault e, st') => (Fault e, st')
  end.

Definition get : M State := λ st, (Ok st, st).
Definition modify (f : State → State) : M unit := λ st, (Ok tt, f st).
Definition lift {A} (r : res A) : M A := λ st, (r, st).

(** [new string]: a fresh non-null address holding the empty string. *)
Definition fresh_address (st : State) : Z := fresh ({[0]} ∪ dom (heap st)).

Definition new_string : M Z := λ st,
  let a := fresh_address st in
  (Ok a, set_heap (<[a := EmptyString]> (heap st)) st).

(** [delete p]: nothing for a null pointer, undefined for a dangling one. *)
Definition delete_string (p : Z) : M unit := λ st,
  if decide (p = 0) then (Ok tt, st)
  else match heap st !! p with
       | Some _ => (Ok tt, set_heap (delete p (heap st)) st)
       | None => (Fault DanglingHandle, st)
       end.

Definition store_string (p : Z) (s : string) : M unit :=
  modify (λ st, set_heap (<[p := s]> (heap st)) st).

(** [*p] for [p = reinterpret_cast<string*>(fi->fh)]. *)
Definition deref_string (p : Z) : M string := λ st,
  match heap st !! p with
  | Some s => (Ok s, st)
  | None => (Fault DanglingHandle, st)
  end.

(** [memcpy(buf, content->data() + offset, size)]: the bytes copied.  The
    source range has to lie inside the string; on every path where the sum
    [offset + size] did not wrap around it does. *)
Definition memcpy_from (content : string) (offset size : Z) : res string :=
  if decide (offset + size ≤ Z.of_nat (String.length content)) then
    Ok (substr content (Z.to_nat offset) (Z.to_nat size))
  else Fault CopyOutOfBounds.

(** [get_directory_write_callback(ptr, size, nmemb, userdata)]: the value
    returned and the string behind [userdata] after [ud->append(ptr, n)], for
    [n = size * nmemb] in [size_t]; [ptr] is given by the bytes readable
    there. *)
Definition get_directory_write_callback (ptr : string) (size nmemb : Z)
    (ud : string) : res (Z * string) :=
  let n := to_size_t (size * nmemb) in
  if decide (n ≤ Z.of_nat (String.length ptr))
  then Ok (n, ud +:+ take_str (Z.to_nat n) ptr)
  else Fault CopyOutOfBounds.

Module Curlie.
Section WithNetwork.

(** The outcome of a transfer, given the URLs requested before and the URL. *)
Variable net : list string → string → CurlOutcome.

(** [Curlie::getFile(url, content)]: the status as [unsigned] ([-1] converted
    when curl fails) and [content] with the received bytes appended. *)
Definition status (o : CurlOutcome) : Z :=
  match o with
  | InitFailed | PerformFailed _ => to_unsigned (-1)
  | Completed responseCode _ => to_unsigned responseCode
  end.

Definition written (o : CurlOutcome) : string :=
  match o with
  | InitFailed => EmptyString
  | PerformFailed received | Completed _ received => received
  end.

Definition getFile (url : string) (content : string) : M (Z * string) := λ st,
  let o := net (requests st) url in
  (Ok (status o, content +:+ written o), set_requests (requests st ++ [url]) st).

End WithNetwork.
End Curlie.

Module TerraFs.
Section WithNetwork.

Variable net : list string → string → CurlOutcome.

(** [TerraFs::getDirIndex(path)] *)
Definition getDirIndex (path : string) : M (option DirIndex.t) :=
  st ← get;
  let url := baseUrl st +:+ path in
  match dirIndexCache st !! url with
  | Some cached => mret cached
  | None =>
      '(res, dirindexContent) ← Curlie.getFile net (url +:+ "/.dirindex") EmptyString;
      (* cache negative hits as NULL *)
      di ← (if decide (res = 200)
            then d ← lift (DirIndex.parse dirindexContent); mret (Some d)
            else mret None);
      modify (λ st, set_dirIndexCache (<[url := di]> (dirIndexCache st)) st);;
      mret di
  end.

(** [dynamic_cast<FileDirIndexEntry*>] and [dynamic_cast<DirDirIndexEntry*>] *)
Definition as_file (e : DirIndexEntry) : option Z :=
  match e with
  | FileDirIndexEntry _ size => Some size
  | DirDirIndexEntry _ => None
  end.

Definition as_dir (e : DirIndexEntry) : bool :=
  match e with
  | FileDirIndexEntry _ _ => false
  | DirDirIndexEntry _ => true
  end.

(** What the static root passes to the filler for each fixed name. *)
Definition static_stat : stat :=
  {| st_mode := Z.lor S_IFDIR (octal 5 4 4); st_nlink := 1; st_size := 0 |}.

(** What the loop of [readDir] passes to the filler for one entry.  The
    mode of a directory entry is written [S_IFDIR | 544], in decimal. *)
Definition entry_stat (e : DirIndexEntry) : stat :=
  let st := {| st_mode := 0; st_nlink := 1; st_size := 0 |} in
  let st := match as_file e with
            | Some size => {| st_mode := Z.lor S_IFDIR (octal 4 4 4);
                              st_nlink := st_nlink st; st_size := size |}
            | None => st
            end in
  if as_dir e
  then {| st_mode := Z.lor S_IFDIR 544; st_nlink := st_nlink st; st_size := st_size st |}
  else st.

(** [TerraFs::readDir(path, buf, filler, ...)]: the returned value and the
    records handed to [filler], in order. *)
Definition readDir (path : string) : M (Z * list (string * stat)) :=
  st ← get;
  if staticRoot st && bool_decide (path = "/") then
    mret (0, [("Airports", static_stat); ("Objects", static_stat);
              ("Models", static_stat); ("Terrain", static_stat)])
  else
    dirIndex ← getDirIndex path;
    match dirIndex with
    | None => mret (- ENOENT, [])
    | Some d =>
        mret (0, (λ e, (getName e, entry_stat e)) <$> DirIndex.getEntries d)
    end.

(** [TerraFs::getDirIndexEntry(path)] *)
Definition getDirIndexEntry (path : string) : M (option DirIndexEntry) :=
  (* strip last element to get parent dir *)
  match find_last_of path slash with
  | None => mret None
  | Some last =>
      let parent := substr path 0 last in
      let file := drop_str (last + 1) path in
      dirIndex ← getDirIndex parent;
      match dirIndex with
      | None => mret None
      | Some d => mret (DirIndex.find d file)
      end
  end.

(** [TerraFs::getAttr(path, stbuf)]: the returned value and [*stbuf]. *)
Definition getAttr (path : string) : M (Z * stat) :=
  st ← get;
  if decide (path = "/") then
    mret (0, {| st_mode := Z.lor S_IFDIR (octal 5 4 4); st_nlink := 1; st_size := 0 |})
  else if staticRoot st
          && bool_decide (path = "/Airports" ∨ path = "/Objects"
                          ∨ path = "/Models" ∨ path = "/Terrain") then
    mret (0, {| st_mode := Z.lor S_IFDIR (octal 5 4 4); st_nlink := 1; st_size := 0 |})
  else
    entry ← getDirIndexEntry path;
    match entry with
    | None => mret (- ENOENT, zero_stat)
    | Some e =>
        match as_file e with
        | Some size =>
            (* it's a file! *)
            mret (0, {| st_mode := Z.lor S_IFREG (octal 4 4 4); st_nlink := 1;
                        st_size := size |})
        | None =>
            if as_dir e then
              (* it's a dir! *)
              mret (0, {| st_mode := Z.lor S_IFDIR (octal 5 5 5); st_nlink := 1;
                          st_size := 0 |})
            else
              mret (- ENOENT, {| st_mode := 0; st_nlink := 1; st_size := 0 |})
        end
    end.

(** [TerraFs::open(path, fi)]: the returned value and [*fi]. *)
Definition open (path : string) (fi : fuse_file_info) : M (Z * fuse_file_info) :=
  if decide (Z.land (flags fi) 3 ≠ O_RDONLY) then mret (- EACCES, fi)
  else
    entry ← getDirIndexEntry path;
    match entry with
    | None => mret (- ENOENT, fi)
    | Some _ =>
        st ← get;
        content ← new_string;
        '(res, received) ← Curlie.getFile net (baseUrl st +:+ path) EmptyString;
        store_string content received;;
        if decide (res ≠ 200) then
          delete_string content;;
          mret (- ENOENT, fi)
        else
          mret (0, {| flags := flags fi; fh := content |})
    end.

(** [TerraFs::release(path, fi)] *)
Definition release (path : string) (fi : fuse_file_info) : M Z :=
  delete_string (fh fi);;
  mret 0.

(** The copy of [TerraFs::read] out of the buffered content: the returned
    value and the bytes copied to [buf].  [offset] is converted to [size_t]
    where it meets [len] and [size]; the result is converted to [int]. *)
Definition copy_out (content : string) (size offset : Z) : res (Z * string) :=
  let len := Z.of_nat (String.length content) in
  if decide (to_size_t offset < len) then
    let size := if decide (to_size_t (to_size_t offset + size) > len)
                then to_size_t (len - to_size_t offset) else size in
    copied ← memcpy_from content (to_size_t offset) size;
    mret (to_int size, copied)
  else
    mret (to_int 0, EmptyString).

(** [TerraFs::read(path, buf, size, offset, fi)] *)
Definition read (path : string) (size offset : Z) (fi : fuse_file_info) : M (Z * string) :=
  if decide (Z.land (flags fi) 3 ≠ O_RDONLY) then mret (- EACCES, EmptyString)
  else
    entry ← getDirIndexEntry path;
    match entry with
    | None => mret (- ENOENT, EmptyString)
    | Some _ =>
        content ← deref_string (fh fi);
        lift (copy_out content size offset)
    end.

(** The calls the driver makes. *)
Inductive request : Type :=
| ReadDir (path : string)
| GetAttr (path : string)
| Open (path : string) (fi : fuse_file_info)
| Read (path : string) (size offset : Z) (fi : fuse_file_info)
| Release (path : string) (fi : fuse_file_info).

Definition serve (r : request) : M unit :=
  match r with
  | ReadDir path => readDir path;; mret tt
  | GetAttr path => getAttr path;; mret tt
  | Open path fi => open path fi;; mret tt
  | Read path size offset fi => read path size offset fi;; mret tt
  | Release path fi => release path fi;; mret tt
  end.

(** [st'] is reached from [st] by serving requests that all returned. *)
Inductive reaches (st : State) : State → Prop :=
| reaches_refl : reaches st st
| reaches_step r st1 st2 :
    reaches st st1 → serve r st1 = (Ok tt, st2) → reaches st st2.

(** [p] is the handle of a file opened at [path] and not released since. *)
Inductive open_handle (path : string) (p : Z) : State → Prop :=
| handle_opened fi fi' st st' :
    open path fi st = (Ok (0, fi'), st') → fh fi' = p → open_handle path p st'
| handle_kept r st st' :
    open_handle path p st → serve r st = (Ok tt, st') →
    (∀ path' fi, r = Release path' fi → fh fi ≠ p) →
    open_handle path p st'.

End WithNetwork.
End TerraFs.

(** * Predicates of the specification *)

Fixpoint all_chars (P : ascii → bool) (s : string) : bool :=
  match s with
  | EmptyString => true
  | String c s' => P c && all_chars P s'
  end.

Definition is_digit (c : ascii) : bool := bool_decide (is_Some (digit c)).

(** The value of a string of decimal digits. *)
Fixpoint decimal (ds : string) : Z :=
  match ds with
  | EmptyString => 0
  | String c ds' =>
      default 0 (digit c) * 10 ^ Z.of_nat (String.length ds') + decimal ds'
  end.

(** A token that reads as an integer: white space, then an optional sign,
    then at least one decimal digit, then anything that does not go on with a
    digit; the signed value of the digits is in the range of [long]. *)
Definition parseable_integer (s : string) : Prop :=
  ∃ ws sign ds rest,
    s = ws +:+ sign +:+ ds +:+ rest
    ∧ all_chars isspace ws = true
    ∧ (sign = EmptyString ∨ sign = "+" ∨ sign = "-")
    ∧ ds ≠ EmptyString ∧ all_chars is_digit ds = true
    ∧ starts_with_digit rest = false
    ∧ LONG_MIN ≤ (if decide (sign = "-") then - decimal ds else decimal ds) ≤ LONG_MAX.

(** The condition on one line of a listing under which the parser reads
    no token that is not there and converts no token that is not a number. *)
Definition well_formed_line (line : string) : Prop :=
  let tokens := split line colon in
  line ≠ EmptyString
  ∧ (tokens !! 0%nat = Some "version" →
     ∃ t1, tokens !! 1%nat = Some t1 ∧ parseable_integer t1)
  ∧ (tokens !! 0%nat = Some "d" ∨ tokens !! 0%nat = Some "f" →
     (2 ≤ length tokens)%nat)
  ∧ (tokens !! 0%nat = Some "f" →
     (4 ≤ length tokens)%nat
     ∧ ∃ t3, tokens !! 3%nat = Some t3 ∧ parseable_integer t3).

(** [r] is what a scan of [es] in order for the name [leaf] finds: the first
    entry with that name, nothing when no entry has it. *)
Definition first_match (es : list DirIndexEntry) (leaf : string)
    (r : option DirIndexEntry) : Prop :=
  match r with
  | Some e =>
      ∃ before after, es = before ++ e :: after ∧ getName e = leaf
                      ∧ Forall (λ x, getName x ≠ leaf) before
  | None => Forall (λ x, getName x ≠ leaf) es
  end.

(** The file type of a mode is "directory". *)
Definition is_directory_mode (mode : Z) : Prop := Z.land mode S_IFMT = S_IFDIR.

(** The permission bits of a mode. *)
Definition permissions (mode : Z) : Z := Z.land mode (octal 7 7 7).

(** Read and execute permission for owner, group and others. *)
Definition rx_for_all (mode : Z) : Prop :=
  Z.land mode (octal 5 5 5) = octal 5 5 5.

(** [st'] is a later state of the same filesystem object as [st]: same
    configuration, every cache entry of [st] still there with its value, and
    the requests of [st] a prefix of those of [st']. *)
Definition extends (st st' : State) : Prop :=
  baseUrl st' = baseUrl st
  ∧ staticRoot st' = staticRoot st
  ∧ (∀ url v, dirIndexCache st !! url = Some v → dirIndexCache st' !! url = Some v)
  ∧ requests st `prefix_of` requests st'.

(** The cache of [st] holds a listing for the parent of [path], and the leaf
    of [path] is found in it as [e]. *)
Definition resolved (path : string) (e : DirIndexEntry) (st : State) : Prop :=
  ∃ last d,
    find_last_of path slash = Some last
    ∧ dirIndexCache st !! (baseUrl st +:+ substr path 0 last) = Some (Some d)
    ∧ DirIndex.find d (drop_str (last + 1) path) = Some e.

(** The listing text of the example: three lines. *)
Definition sample_listing : string :=
  "version:1" +:+ String nl "d:Sub" +:+ String nl "f:a.txt:x:42".

(** ** Joining items and writing listings *)

(** Every item followed by the delimiter. *)
Fixpoint unsplit (items : list string) (delim : ascii) : string :=
  match items with
  | [] => EmptyString
  | item :: rest => item +:+ String delim (unsplit rest delim)
  end.

Fixpoint ends_with (s : string) (c : ascii) : bool :=
  match s with
  | EmptyString => false
  | String a s' =>
      match s' with
      | EmptyString => bool_decide (a = c)
      | _ => ends_with s' c
      end
  end.

(** The name a line of a listing contributes: the second token of a [d] or
    [f] line. *)
Definition listed_name (line : string) : option string :=
  match split line colon with
  | t0 :: name :: _ => if decide (t0 = "d" ∨ t0 = "f") then Some name else None
  | _ => None
  end.

(** A record of the listing format of the remote tree: [d:<name>] and
    [f:<name>:<ignored>:<size>], the size written in decimal digits. *)
Inductive listing_record : Type :=
| RecDir (name : string)
| RecFile (name : string) (size_digits : string).

Definition render_record (r : listing_record) : string :=
  match r with
  | RecDir name => "d:" +:+ name
  | RecFile name ds => "f:" +:+ name +:+ ":x:" +:+ ds
  end.

(** One record per line, every line ended by a newline. *)
Definition render (rs : list listing_record) : string :=
  unsplit (render_record <$> rs) nl.

Definition entry_of_record (r : listing_record) : DirIndexEntry :=
  match r with
  | RecDir name => DirDirIndexEntry name
  | RecFile name ds => FileDirIndexEntry name (to_unsigned (decimal ds))
  end.

Definition record_name (r : listing_record) : string :=
  match r with RecDir name | RecFile name _ => name end.

(** A record the format can carry: a non-empty name without [':'] and
    newline, and for a file a non-empty string of digits that fits [long]. *)
Definition record_ok (r : listing_record) : Prop :=
  record_name r ≠ EmptyString
  ∧ ¬ occurs colon (record_name r) ∧ ¬ occurs nl (record_name r)
  ∧ match r with
    | RecDir _ => True
    | RecFile _ ds =>
        ds ≠ EmptyString ∧ all_chars is_digit ds = true ∧ decimal ds ≤ LONG_MAX
    end.

(** The size of a file entry fits an [unsigned]. *)
Definition size_in_range (e : DirIndexEntry) : Prop :=
  match e with
  | FileDirIndexEntry _ size => 0 ≤ size < 2 ^ 32
  | DirDirIndexEntry _ => True
  end.


(** What [getAttr] reports for an entry found in a listing. *)
Definition entry_attr (e : DirIndexEntry) : stat :=
  match e with
  | FileDirIndexEntry _ size =>
      {| st_mode := Z.lor S_IFREG (octal 4 4 4); st_nlink := 1; st_size := size |}
  | DirDirIndexEntry _ =>
      {| st_mode := Z.lor S_IFDIR (octal 5 5 5); st_nlink := 1; st_size := 0 |}
  end.

(** The four paths [getAttr] answers by itself in static-root mode. *)
Definition static_path (path : string) : Prop :=
  path = "/Airports" ∨ path = "/Objects" ∨ path = "/Models" ∨ path = "/Terrain".

(** [url] lies under the base URL. *)
Definition under_base (base url : string) : Prop := ∃ p, url = base +:+ p.

(** From [st] to [st'] at most [n] requests were added, all under the base
    URL, which did not change. *)
Definition requested (n : nat) (st st' : State) : Prop :=
  ∃ new, requests st' = requests st ++ new ∧ (length new ≤ n)%nat
         ∧ Forall (under_base (baseUrl st)) new ∧ baseUrl st' = baseUrl st.

(** ** A small remote tree for the examples

    The base URL [http://host] serves a root listing with the directory
    [Sub] and the ten-byte file [a.txt]; every other URL answers 404. *)
Definition demo_net : list string → string → CurlOutcome := λ _ url,
  if decide (url = "http://host/.dirindex") then
    Completed 200 ("version:1" +:+ String nl "d:Sub" +:+ String nl "f:a.txt:x:10")
  else if decide (url = "http://host/a.txt") then Completed 200 "0123456789"
  else Completed 404 EmptyString.

Definition demo_fs : State := new_TerraFs (Some "http://host") false.

Definition demo_static_fs : State := new_TerraFs (Some "http://host") true.

Definition demo_listing : DirIndex.t :=
  {| DirIndex.version := Some 1; DirIndex.path := EmptyString;
     DirIndex.entries := [DirDirIndexEntry "Sub"; FileDirIndexEntry "a.txt" 10] |}.

(** The state and the file info after [open("/a.txt")] on [demo_fs]. *)
Definition demo_fi : fuse_file_info :=
  {| flags := O_RDONLY; fh := fresh_address demo_fs |}.

Definition demo_opened : State :=
  snd (TerraFs.open demo_net "/a.txt" {| flags := O_RDONLY; fh := 0 |} demo_fs).

(** * Properties *)

(** ** Strings *)

Lemma app_cons (c : ascii) (s t : string) : String c s +:+ t = String c (s +:+ t).
Proof. reflexivity. Qed.

Lemma app_empty_l (s : string) : EmptyString +:+ s = s.
Proof. reflexivity. Qed.

Lemma app_empty_r (s : string) : s +:+ EmptyString = s.
Proof. induction s as [|c s IH]; [done|]. by rewrite app_cons, IH. Qed.

Lemma app_assoc_str (s t u : string) : (s +:+ t) +:+ u = s +:+ (t +:+ u).
Proof. induction s as [|c s IH]; [done|]. by rewrite !app_cons, IH. Qed.

Lemma length_app_str (s t : string) :
  String.length (s +:+ t) = (String.length s + String.length t)%nat.
Proof. induction s as [|c s IH]; [done|]. rewrite app_cons. simpl. by rewrite IH. Qed.

Lemma app_inv_head_str (s t u : string) : s +:+ t = s +:+ u → t = u.
Proof. induction s as [|c s IH]; [done|]. rewrite !app_cons. intros [= H]. auto. Qed.

Lemma app_cons_neq (s : string) (c : ascii) (t : string) : s ≠ s +:+ String c t.
Proof.
  intros H. apply (f_equal String.length) in H.
  rewrite length_app_str in H. simpl in H. lia.
Qed.

Lemma find_last_of_None (s : string) (c : ascii) :
  find_last_of s c = None ↔ ¬ occurs c s.
Proof.
  induction s as [|a s IH]; simpl; [tauto|].
  destruct (find_last_of s c) as [i|].
  - split; [done|]. intros H.
    assert (¬ occurs c s) as Hn by tauto. by apply IH in Hn.
  - destruct (decide (a = c)) as [->|Hne]; split; try done.
    + intros H. exfalso. apply H. by left.
    + intros _ [?|?]; [done|]. by apply IH.
Qed.

Lemma find_last_of_app (parent leaf : string) (c : ascii) :
  ¬ occurs c leaf →
  find_last_of (parent +:+ String c leaf) c = Some (String.length parent).
Proof.
  intros Hleaf. apply find_last_of_None in Hleaf.
  induction parent as [|a p IH].
  - rewrite app_empty_l. simpl. rewrite Hleaf. by rewrite decide_True.
  - rewrite app_cons. simpl. by rewrite IH.
Qed.

Lemma substr_app (parent rest : string) :
  substr (parent +:+ rest) 0 (String.length parent) = parent.
Proof.
  unfold substr. simpl. induction parent as [|a p IH]; simpl; [done|].
  by rewrite IH.
Qed.

Lemma drop_str_app (parent : string) (c : ascii) (leaf : string) :
  drop_str (String.length parent + 1) (parent +:+ String c leaf) = leaf.
Proof. induction parent as [|a p IH]; [done|]. rewrite app_cons. simpl. apply IH. Qed.

(** A position returned by [find_last_of] cuts the string at its last
    occurrence of the character. *)
Lemma find_last_of_Some (s : string) (c : ascii) (i : nat) :
  find_last_of s c = Some i →
  s = substr s 0 i +:+ String c (drop_str (i + 1) s)
  ∧ String.length (substr s 0 i) = i
  ∧ ¬ occurs c (drop_str (i + 1) s).
Proof.
  revert i. induction s as [|a s IH]; intros i; simpl; [done|].
  destruct (find_last_of s c) as [j|] eqn:E.
  - intros [= <-]. destruct (IH j eq_refl) as (H1 & H2 & H3).
    unfold substr in *. simpl in *. rewrite app_cons.
    split; [by rewrite <- H1|]. split; [by rewrite H2|done].
  - destruct (decide (a = c)) as [->|]; [|done]. intros [= <-].
    unfold substr. simpl. rewrite app_empty_l.
    split; [done|]. split; [done|]. by apply find_last_of_None.
Qed.

Lemma occurs_dec_split (s : string) (c : ascii) :
  ¬ occurs c s
  ∨ ∃ parent leaf, s = parent +:+ String c leaf ∧ ¬ occurs c leaf.
Proof.
  destruct (find_last_of s c) as [i|] eqn:E.
  - right. apply find_last_of_Some in E as (H1 & _ & H3). eauto.
  - left. by apply find_last_of_None.
Qed.

(** The loop of [split] over [getline]. *)
Lemma split_unfold (s : string) (delim : ascii) :
  split s delim =
  match getline s delim with
  | None => []
  | Some (item, rest) => item :: split rest delim
  end.
Proof.
  induction s as [|a s IH]; [done|].
  unfold getline. simpl. destruct (decide (a = delim)); [done|].
  rewrite IH. unfold getline. destruct s as [|b s]; [done|].
  by destruct (getline_chars (String b s) delim).
Qed.

Lemma split_nil (s : string) (delim : ascii) : split s delim = [] ↔ s = EmptyString.
Proof.
  split; [|by intros ->]. destruct s as [|a s]; [done|]. simpl.
  destruct (decide (a = delim)); [done|]. by destruct (split s delim).
Qed.

Lemma length_take_str (n : nat) (s : string) :
  String.length (take_str n s) = (n `min` String.length s)%nat.
Proof. revert s. induction n as [|n IH]; intros [|c s]; simpl; auto. Qed.

Lemma length_drop_str (n : nat) (s : string) :
  String.length (drop_str n s) = (String.length s - n)%nat.
Proof. revert s. induction n as [|n IH]; intros [|c s]; simpl; auto. Qed.

Lemma length_substr (s : string) (pos count : nat) :
  (pos + count ≤ String.length s)%nat → String.length (substr s pos count) = count.
Proof. intros H. unfold substr. rewrite length_take_str, length_drop_str. lia. Qed.

(** The bytes of [substr], one by one. *)
Lemma substr_get (s : string) (pos count i : nat) :
  (i < count)%nat → (pos + count ≤ String.length s)%nat →
  String.get i (substr s pos count) = String.get (pos + i) s.
Proof.
  unfold substr. revert s count i. induction pos as [|pos IH]; intros s count i Hi Hlen.
  - simpl. revert s i Hi Hlen. induction count as [|count IHc]; intros s i Hi Hlen; [lia|].
    destruct s as [|c s]; simpl in *; [lia|].
    destruct i as [|i]; [done|]. apply IHc; lia.
  - destruct s as [|c s]; simpl in *; [lia|]. apply IH; lia.
Qed.

(** ** Integer conversion *)

Lemma digit_not_space (c : ascii) : is_digit c = true → isspace c = false.
Proof. by destruct c as [[] [] [] [] [] [] [] []]. Qed.

Lemma digit_not_sign (c : ascii) :
  is_digit c = true → c ≠ "+"%char ∧ c ≠ "-"%char.
Proof. by destruct c as [[] [] [] [] [] [] [] []]. Qed.

Lemma span_spaces (s : string) :
  ∃ ws, s = ws +:+ skip_spaces s ∧ all_chars isspace ws = true.
Proof.
  induction s as [|c s (ws & IH1 & IH2)]; simpl.
  - by exists EmptyString.
  - destruct (isspace c) eqn:E.
    + exists (String c ws). split; [by rewrite app_cons, <- IH1|].
      simpl. by rewrite E, IH2.
    + by exists EmptyString.
Qed.

Lemma skip_spaces_app (ws rest : string) :
  all_chars isspace ws = true →
  match rest with String c _ => isspace c = false | EmptyString => True end →
  skip_spaces (ws +:+ rest) = rest.
Proof.
  intros Hws Hrest. induction ws as [|c ws IH]; simpl in *.
  - destruct rest as [|c r]; simpl; [done|]. by rewrite Hrest.
  - apply andb_true_iff in Hws as [-> Hws]. auto.
Qed.

Lemma strip_sign_spec (s : string) :
  ∃ sign, s = sign +:+ (strip_sign s).2
          ∧ (sign = EmptyString ∧ (strip_sign s).1 = false
             ∨ sign = "+" ∧ (strip_sign s).1 = false
             ∨ sign = "-" ∧ (strip_sign s).1 = true).
Proof.
  destruct s as [|c r]; [exists EmptyString; by auto|].
  destruct (decide (c = "-"%char)) as [->|Hm]; [exists "-"; by auto|].
  destruct (decide (c = "+"%char)) as [->|Hp]; [exists "+"; by auto|].
  exists EmptyString. split; [|left; split; [done|]];
    by destruct c as [[] [] [] [] [] [] [] []].
Qed.

Lemma span_digits (s : string) :
  ∃ ds rest, s = ds +:+ rest ∧ all_chars is_digit ds = true
             ∧ starts_with_digit rest = false
             ∧ (starts_with_digit s = true → ds ≠ EmptyString).
Proof.
  induction s as [|c s (ds & rest & IH1 & IH2 & IH3 & _)].
  - by exists EmptyString, EmptyString.
  - destruct (is_digit c) eqn:E.
    + exists (String c ds), rest. rewrite app_cons, <- IH1. simpl.
      rewrite E, IH2. by repeat split.
    + exists EmptyString, (String c s). simpl. unfold is_digit in E.
      rewrite E. by repeat split.
Qed.

(** [read_digits] accumulates the decimal value of the digits it reads. *)
Lemma read_digits_app (ds rest : string) (acc : Z) :
  all_chars is_digit ds = true → starts_with_digit rest = false →
  read_digits (ds +:+ rest) acc
  = acc * 10 ^ Z.of_nat (String.length ds) + decimal ds.
Proof.
  intros Hds Hrest. revert acc. induction ds as [|c ds IH]; intros acc; simpl in *.
  - destruct rest as [|c r]; simpl in *; [lia|].
    destruct (digit c); [|lia].
    apply bool_decide_eq_false in Hrest. by destruct Hrest.
  - apply andb_true_iff in Hds as [Hc Hds]. unfold is_digit in Hc.
    apply bool_decide_eq_true in Hc as [d Hd]. rewrite Hd. simpl.
    rewrite IH by done. rewrite Nat2Z.inj_succ, Z.pow_succ_r by lia. lia.
Qed.

Lemma starts_with_digit_app (ds rest : string) :
  ds ≠ EmptyString → all_chars is_digit ds = true →
  starts_with_digit (ds +:+ rest) = true.
Proof.
  destruct ds as [|c ds]; [done|]. simpl. intros _ H.
  apply andb_true_iff in H as [H _]. exact H.
Qed.

(** [stol] converts exactly the tokens that read as an integer. *)
Lemma stol_Ok (s : string) : is_Ok (stol s) ↔ parseable_integer s.
Proof.
  unfold stol, parseable_integer. split.
  - destruct (span_spaces s) as (ws & Hs & Hws).
    destruct (strip_sign_spec (skip_spaces s)) as (sign & Hsign & Hcases).
    destruct (strip_sign (skip_spaces s)) as [neg body]. simpl in *.
    destruct (starts_with_digit body) eqn:Hbody; [|by intros []].
    destruct (span_digits body) as (ds & rest & Hb & Hds & Hrest & Hne).
    intros HOk. exists ws, sign, ds, rest.
    split; [by rewrite <- Hb, <- Hsign|]. split; [done|].
    split; [destruct Hcases as [[-> _]|[[-> _]|[-> _]]]; auto|].
    split; [by apply Hne|]. split; [done|]. split; [done|].
    rewrite Hb, (read_digits_app _ _ _ Hds Hrest) in HOk. simpl in HOk.
    assert (neg = bool_decide (sign = "-")) as ->
      by (by destruct Hcases as [[-> ->]|[[-> ->]|[-> ->]]]).
    case_bool_decide; [rewrite decide_True by done|rewrite decide_False by done];
      (destruct (_ && _) eqn:Hr; [|by destruct HOk]);
      apply andb_true_iff in Hr as [?%Z.leb_le ?%Z.leb_le]; lia.
  - intros (ws & sign & ds & rest & -> & Hws & Hsign & Hne & Hds & Hrest & Hrange).
    assert (skip_spaces (ws +:+ sign +:+ ds +:+ rest) = sign +:+ ds +:+ rest) as ->.
    { apply skip_spaces_app; [done|].
      destruct Hsign as [->|[->| ->]]; [|done|done].
      destruct ds as [|c ds]; [done|]. simpl in *.
      apply andb_true_iff in Hds as [Hc _]. by apply digit_not_space. }
    assert (strip_sign (sign +:+ ds +:+ rest)
            = (bool_decide (sign = "-"), ds +:+ rest)) as ->.
    { destruct Hsign as [->|[->| ->]]; [|done|done].
      destruct ds as [|c ds]; [done|]. simpl in *.
      apply andb_true_iff in Hds as [Hc _].
      apply digit_not_sign in Hc as [Hp Hm].
      by destruct c as [[] [] [] [] [] [] [] []]. }
    rewrite starts_with_digit_app by done.
    rewrite (read_digits_app _ _ _ Hds Hrest). simpl.
    case_bool_decide; [rewrite decide_True in Hrange by done
                      |rewrite decide_False in Hrange by done];
      (destruct (_ && _) eqn:Hr; [by eexists|]);
      apply andb_false_iff in Hr as [?%Z.leb_gt|?%Z.leb_gt]; lia.
Qed.

(** ** The parser *)

Lemma is_Ok_Ok {A} (a : A) : is_Ok (Ok a).
Proof. by exists a. Qed.

Lemma is_Ok_Fault {A} (f : fault) : ¬ is_Ok (@Fault A f).
Proof. by intros [a Ha]. Qed.

#[local] Hint Resolve is_Ok_Ok : core.

Ltac res_simpl :=
  unfold mbind, mret, res_mbind, res_ret, res_bind in *; simpl in *.

Ltac wf_line :=
  repeat split; try done;
  try (intros [?|?]; simplify_eq); try (intros ?; simplify_eq);
  simpl; try lia; try (by simplify_eq).

Lemma parse_line_Ok (d : DirIndex.t) (line : string) :
  is_Ok (DirIndex.parse_line d line) ↔ well_formed_line line.
Proof.
  unfold DirIndex.parse_line, well_formed_line.
  setoid_rewrite <- stol_Ok.
  unfold new_DirDirIndexEntry, new_FileDirIndexEntry, vec_at.
  destruct (split line colon) as [|t0 ts] eqn:E.
  { apply split_nil in E as ->. res_simpl. split; [by intros []|by intros []]. }
  assert (line ≠ EmptyString) as Hne by (by intros ->).
  res_simpl.
  repeat case_decide; subst; try done.
  - destruct ts as [|t1 ts]; simpl.
    + split; [by intros []|]. intros (_ & Hw & _). by destruct (Hw eq_refl) as (? & ? & _).
    + destruct (stol t1) eqn:Et; simpl.
      * split; [intros _|done]. wf_line. exists t1. by rewrite Et.
      * split; [by intros []|]. intros (_ & Hw & _).
        destruct (Hw eq_refl) as (? & [= <-] & HOk). rewrite Et in HOk. by destruct HOk.
  - destruct ts as [|t1 ts]; simpl in *; try lia. split; [intros _|done]. wf_line.
  - split; [intros _|done]. wf_line.
  - destruct ts as [|t1 ts]; simpl.
    + split; [by intros []|]. intros (_ & _ & Hw & _).
      specialize (Hw (or_introl eq_refl)). simpl in Hw. lia.
    + split; [intros _|done]. wf_line.
  - destruct ts as [|t1 [|t2 [|t3 ts]]]; simpl;
      try (split; [by intros []|]; intros (_ & _ & _ & Hw);
           destruct (Hw eq_refl) as [Hl _]; simpl in Hl; lia).
    destruct (stol t3) eqn:Et; simpl.
    + split; [intros _|done]. wf_line. exists t3. by rewrite Et.
    + split; [by intros []|]. intros (_ & _ & _ & Hw).
      destruct (Hw eq_refl) as (_ & ? & [= <-] & HOk). rewrite Et in HOk. by destruct HOk.
  - split; [intros _|done]. wf_line.
Qed.

Lemma parse_lines_Ok (lines : list string) (d : DirIndex.t) :
  is_Ok (DirIndex.parse_lines d lines) ↔ Forall well_formed_line lines.
Proof.
  revert d. induction lines as [|line rest IH]; intros d; simpl.
  - split; [by constructor|]. intros _. by eexists.
  - rewrite Forall_cons, <- (parse_line_Ok d line). res_simpl.
    destruct (DirIndex.parse_line d line) as [d'|f]; simpl.
    + rewrite IH. split; [by split|by intros []].
    + split; [by intros []|]. by intros [[] _].
Qed.

(** C5. The listing text with the lines [version:1], [d:Sub] and
    [f:a.txt:x:42] parses to a listing with exactly two entries, in source
    order: the directory entry ["Sub"], then the file entry ["a.txt"] of size
    42.  The same holds when the last line ends with a newline. *)
Theorem parse_sample_listing :
  DirIndex.parse sample_listing =
    Ok {| DirIndex.version := Some 1; DirIndex.path := EmptyString;
          DirIndex.entries := [DirDirIndexEntry "Sub"; FileDirIndexEntry "a.txt" 42] |}
  ∧ DirIndex.parse (sample_listing +:+ String nl EmptyString) =
      DirIndex.parse sample_listing.
Proof. split; reflexivity. Qed.

(** C9. The parser returns a listing exactly when every line of the input
    is well formed: non-empty, a [version] line with a second token that is a
    parseable integer, a [d] or [f] line with at least two tokens, an [f] line
    with at least four tokens of which the fourth is a parseable integer.
    Outside that precondition it reads a token past the end of the split line
    (a lone [f] line with three tokens, an empty line) or fails an integer
    conversion, and returns no listing. *)
Theorem parse_total_iff_well_formed :
  (∀ data, Forall well_formed_line (split data nl) ↔ is_Ok (DirIndex.parse data))
  ∧ DirIndex.parse "f:a.txt:x" = Fault IndexPastEnd
  ∧ DirIndex.parse (String nl EmptyString) = Fault IndexPastEnd
  ∧ DirIndex.parse "version:one" = Fault InvalidArgument
  ∧ DirIndex.parse "f:a.txt:x:99999999999999999999" = Fault OutOfRange.
Proof.
  split; [|repeat split; reflexivity].
  intros data. unfold DirIndex.parse. symmetry. apply parse_lines_Ok.
Qed.

(** ** The listing cache *)

Section Properties.

Context (net : list string → string → CurlOutcome).

Ltac m_simpl :=
  unfold mbind, mret, M_bind, M_ret, get, modify, lift, Curlie.getFile in *;
  simpl in *.

Lemma extends_refl (st : State) : extends st st.
Proof. by repeat split. Qed.

Lemma extends_trans (st1 st2 st3 : State) :
  extends st1 st2 → extends st2 st3 → extends st1 st3.
Proof.
  intros (B1 & S1 & C1 & R1) (B2 & S2 & C2 & R2). repeat split.
  - congruence.
  - congruence.
  - eauto.
  - by etrans.
Qed.

Lemma getDirIndex_hit (path : string) (st : State) (v : option DirIndex.t) :
  dirIndexCache st !! (baseUrl st +:+ path) = Some v →
  TerraFs.getDirIndex net path st = (Ok v, st).
Proof. intros H. unfold TerraFs.getDirIndex. m_simpl. by rewrite H. Qed.

(** On a miss: one request, and the outcome cached unless the parse faults. *)
Lemma getDirIndex_miss (path : string) (st : State) :
  dirIndexCache st !! (baseUrl st +:+ path) = None →
  let url := baseUrl st +:+ path in
  let o := net (requests st) (url +:+ "/.dirindex") in
  let st1 := set_requests (requests st ++ [url +:+ "/.dirindex"]) st in
  TerraFs.getDirIndex net path st =
    if decide (Curlie.status o = 200) then
      match DirIndex.parse (Curlie.written o) with
      | Ok d => (Ok (Some d), set_dirIndexCache (<[url := Some d]> (dirIndexCache st)) st1)
      | Fault f => (Fault f, st1)
      end
    else (Ok None, set_dirIndexCache (<[url := None]> (dirIndexCache st)) st1).
Proof.
  intros H. unfold TerraFs.getDirIndex. m_simpl. rewrite H.
  case_decide; [|done]. by destruct (DirIndex.parse _).
Qed.

Lemma getDirIndex_extends (path : string) (st st' : State) (r : res (option DirIndex.t)) :
  TerraFs.getDirIndex net path st = (r, st') →
  extends st st' ∧ heap st' = heap st.
Proof.
  destruct (dirIndexCache st !! (baseUrl st +:+ path)) as [v|] eqn:E.
  - rewrite (getDirIndex_hit _ _ _ E). intros [= <- <-]. split; [apply extends_refl|done].
  - rewrite (getDirIndex_miss _ _ E). simpl.
    assert (∀ c, (∀ url v, dirIndexCache st !! url = Some v →
                           <[baseUrl st +:+ path := c]> (dirIndexCache st) !! url = Some v))
      as Hins.
    { intros c url v Hv. rewrite lookup_insert_ne; [done|]. intros <-. congruence. }
    case_decide; [destruct (DirIndex.parse _)|]; intros [= <- <-];
      (split; [|done]); repeat split; simpl; eauto; by apply prefix_app_r.
Qed.

Lemma getDirIndex_cached (path : string) (st st' : State) (v : option DirIndex.t) :
  TerraFs.getDirIndex net path st = (Ok v, st') →
  dirIndexCache st' !! (baseUrl st' +:+ path) = Some v.
Proof.
  destruct (dirIndexCache st !! (baseUrl st +:+ path)) as [v0|] eqn:E.
  - rewrite (getDirIndex_hit _ _ _ E). by intros [= <- <-].
  - rewrite (getDirIndex_miss _ _ E). simpl.
    case_decide; [destruct (DirIndex.parse _)|]; intros [= <- <-]; simpl;
      by rewrite lookup_insert_eq.
Qed.

(** ** The path resolver *)

Lemma getDirIndexEntry_split (parent leaf : string) (st : State) :
  ¬ occurs slash leaf →
  TerraFs.getDirIndexEntry net (parent +:+ String slash leaf) st =
    match TerraFs.getDirIndex net parent st with
    | (Ok (Some d), st') => (Ok (DirIndex.find d leaf), st')
    | (Ok None, st') => (Ok None, st')
    | (Fault f, st') => (Fault f, st')
    end.
Proof.
  intros Hleaf. unfold TerraFs.getDirIndexEntry.
  rewrite (find_last_of_app _ _ _ Hleaf), substr_app, drop_str_app. m_simpl.
  destruct (TerraFs.getDirIndex net parent st) as [[[d|]|f] st']; done.
Qed.

Lemma getDirIndexEntry_no_slash (path : string) (st : State) :
  ¬ occurs slash path → TerraFs.getDirIndexEntry net path st = (Ok None, st).
Proof.
  intros H. apply find_last_of_None in H. unfold TerraFs.getDirIndexEntry.
  by rewrite H.
Qed.

Lemma getDirIndexEntry_extends (path : string) (st st' : State)
    (r : res (option DirIndexEntry)) :
  TerraFs.getDirIndexEntry net path st = (r, st') →
  extends st st' ∧ heap st' = heap st.
Proof.
  unfold TerraFs.getDirIndexEntry. destruct (find_last_of path slash) as [last|].
  - m_simpl.
    destruct (TerraFs.getDirIndex net _ st) as [[[d|]|f] st1] eqn:E;
      intros [= <- <-]; by eapply getDirIndex_extends.
  - intros [= <- <-]. split; [apply extends_refl|done].
Qed.

Lemma getDirIndexEntry_resolved (path : string) (st st' : State) (e : DirIndexEntry) :
  TerraFs.getDirIndexEntry net path st = (Ok (Some e), st') → resolved path e st'.
Proof.
  unfold TerraFs.getDirIndexEntry, resolved.
  destruct (find_last_of path slash) as [last|]; [|done]. m_simpl.
  destruct (TerraFs.getDirIndex net _ st) as [[[d|]|f] st1] eqn:E; try done.
  intros [= Hf <-]. exists last, d. split; [done|]. split; [|done].
  by apply getDirIndex_cached in E.
Qed.

Lemma resolved_getDirIndexEntry (path : string) (st : State) (e : DirIndexEntry) :
  resolved path e st → TerraFs.getDirIndexEntry net path st = (Ok (Some e), st).
Proof.
  intros (last & d & Hl & Hc & Hf). unfold TerraFs.getDirIndexEntry.
  rewrite Hl. m_simpl. rewrite (getDirIndex_hit _ _ _ Hc). by rewrite Hf.
Qed.

Lemma resolved_extends (path : string) (e : DirIndexEntry) (st st' : State) :
  resolved path e st → extends st st' → resolved path e st'.
Proof.
  intros (last & d & Hl & Hc & Hf) (HB & _ & HC & _).
  exists last, d. rewrite HB. eauto.
Qed.

(** ** The open-file table *)

Lemma fresh_address_spec (st : State) :
  fresh_address st ≠ 0 ∧ heap st !! fresh_address st = None.
Proof.
  unfold fresh_address.
  pose proof (is_fresh ({[0]} ∪ dom (heap st))) as H.
  split.
  - intros E. apply H. rewrite E. set_solver.
  - apply not_elem_of_dom. set_solver.
Qed.

(** [open] once the access mode is accepted and the entry is found. *)
Lemma open_resolved (path : string) (fi : fuse_file_info) (st st1 : State)
    (e : DirIndexEntry) :
  Z.land (flags fi) 3 = O_RDONLY →
  TerraFs.getDirIndexEntry net path st = (Ok (Some e), st1) →
  let url := baseUrl st1 +:+ path in
  let o := net (requests st1) url in
  let st2 := set_requests (requests st1 ++ [url]) st1 in
  TerraFs.open net path fi st =
    if decide (Curlie.status o ≠ 200) then (Ok (- ENOENT, fi), st2)
    else (Ok (0, {| flags := flags fi; fh := fresh_address st1 |}),
          set_heap (<[fresh_address st1 := Curlie.written o]> (heap st1)) st2).
Proof.
  intros Hflags Hentry. unfold TerraFs.open. rewrite decide_False by (by intros []).
  m_simpl. rewrite Hentry.
  unfold new_string, store_string, delete_string. m_simpl.
  destruct (fresh_address_spec st1) as [Hnz Hfresh].
  case_decide.
  - rewrite decide_False by done. unfold set_heap, set_requests. simpl.
    rewrite lookup_insert_eq. simpl.
    by rewrite insert_insert_eq, delete_insert_id by done.
  - unfold set_heap, set_requests. simpl. by rewrite insert_insert_eq.
Qed.

Lemma open_extends (path : string) (fi : fuse_file_info) (st st' : State)
    (r : res (Z * fuse_file_info)) :
  TerraFs.open net path fi st = (r, st') →
  extends st st'
  ∧ ∀ p c, heap st !! p = Some c → heap st' !! p = Some c.
Proof.
  destruct (decide (Z.land (flags fi) 3 = O_RDONLY)) as [Hf|Hf].
  - destruct (TerraFs.getDirIndexEntry net path st) as [[[e|]|f] st1] eqn:E.
    + rewrite (open_resolved _ _ _ _ _ Hf E). simpl.
      apply getDirIndexEntry_extends in E as [Hext Hheap].
      destruct (fresh_address_spec st1) as [_ Hfresh].
      assert (extends st (set_requests
                (requests st1 ++ [baseUrl st1 +:+ path]) st1)) as Hext'.
      { destruct Hext as (HB & HS & HC & HR). repeat split; simpl; eauto.
        by apply prefix_app_r. }
      case_decide; intros [= <- <-]; (split; [done|]); simpl.
      * intros p c. by rewrite Hheap.
      * intros p c Hp. rewrite <- Hheap in Hp.
        rewrite lookup_insert_ne; [done|]. intros <-. congruence.
    + unfold TerraFs.open. rewrite decide_False by (by intros []).
      m_simpl. rewrite E. intros [= <- <-].
      apply getDirIndexEntry_extends in E as [Hext Hheap].
      split; [done|]. intros p c. by rewrite Hheap.
    + unfold TerraFs.open. rewrite decide_False by (by intros []).
      m_simpl. rewrite E. intros [= <- <-].
      apply getDirIndexEntry_extends in E as [Hext Hheap].
      split; [done|]. intros p c. by rewrite Hheap.
  - unfold TerraFs.open. rewrite decide_True by done. intros [= <- <-].
    split; [apply extends_refl|done].
Qed.

(** A successful [open] leaves the path resolved and the handle live. *)
Lemma open_success (path : string) (fi fi' : fuse_file_info) (st st' : State) :
  TerraFs.open net path fi st = (Ok (0, fi'), st') →
  (∃ e, resolved path e st') ∧ is_Some (heap st' !! fh fi').
Proof.
  destruct (decide (Z.land (flags fi) 3 = O_RDONLY)) as [Hf|Hf].
  - destruct (TerraFs.getDirIndexEntry net path st) as [[[e|]|f] st1] eqn:E.
    + rewrite (open_resolved _ _ _ _ _ Hf E). simpl.
      apply getDirIndexEntry_resolved in E.
      case_decide; intros [= <- <-]. split.
      * exists e. destruct E as (last & d & ? & ? & ?). by exists last, d.
      * simpl. rewrite lookup_insert_eq. by eexists.
    + unfold TerraFs.open. rewrite decide_False by (by intros []).
      m_simpl. by rewrite E.
    + unfold TerraFs.open. rewrite decide_False by (by intros []).
      m_simpl. by rewrite E.
  - unfold TerraFs.open. by rewrite decide_True by done.
Qed.

Lemma readDir_extends (path : string) (st st' : State)
    (r : res (Z * list (string * stat))) :
  TerraFs.readDir net path st = (r, st') → extends st st' ∧ heap st' = heap st.
Proof.
  unfold TerraFs.readDir. m_simpl.
  destruct (staticRoot st && bool_decide (path = "/")).
  - intros [= <- <-]. split; [apply extends_refl|done].
  - destruct (TerraFs.getDirIndex net path st) as [[[d|]|f] st1] eqn:E;
      intros [= <- <-]; by eapply getDirIndex_extends.
Qed.

Lemma getAttr_extends (path : string) (st st' : State) (r : res (Z * stat)) :
  TerraFs.getAttr net path st = (r, st') → extends st st' ∧ heap st' = heap st.
Proof.
  unfold TerraFs.getAttr. m_simpl.
  case_decide; [intros [= <- <-]; split; [apply extends_refl|done]|].
  destruct (staticRoot st && _);
    [intros [= <- <-]; split; [apply extends_refl|done]|].
  destruct (TerraFs.getDirIndexEntry net path st) as [[[e|]|f] st1] eqn:E;
    [destruct (TerraFs.as_file e); [|destruct (TerraFs.as_dir e)]| |];
    intros [= <- <-]; by eapply getDirIndexEntry_extends.
Qed.

Lemma read_extends (path : string) (size offset : Z) (fi : fuse_file_info)
    (st st' : State) (r : res (Z * string)) :
  TerraFs.read net path size offset fi st = (r, st') →
  extends st st' ∧ heap st' = heap st.
Proof.
  unfold TerraFs.read.
  case_decide; [intros [= <- <-]; split; [apply extends_refl|done]|].
  m_simpl.
  destruct (TerraFs.getDirIndexEntry net path st) as [[[e|]|f] st1] eqn:E;
    [unfold deref_string; destruct (heap st1 !! fh fi);
       [destruct (TerraFs.copy_out _ _ _)|]| |];
    intros [= <- <-]; by eapply getDirIndexEntry_extends.
Qed.

Lemma release_extends (path : string) (fi : fuse_file_info) (st st' : State)
    (r : res Z) :
  TerraFs.release path fi st = (r, st') →
  extends st st'
  ∧ ∀ p c, p ≠ fh fi → heap st !! p = Some c → heap st' !! p = Some c.
Proof.
  unfold TerraFs.release, delete_string. m_simpl.
  case_decide; [intros [= <- <-]; split; [apply extends_refl|done]|].
  destruct (heap st !! fh fi) eqn:E; intros [= <- <-];
    (split; [by repeat split|]); [|done].
  intros p c Hp Hc. simpl. by rewrite lookup_delete_ne.
Qed.

Lemma serve_extends (r : TerraFs.request) (st st' : State) (x : res unit) :
  TerraFs.serve net r st = (x, st') → extends st st'.
Proof.
  destruct r as [path|path|path fi|path size offset fi|path fi];
    unfold TerraFs.serve; m_simpl.
  - destruct (TerraFs.readDir net path st) as [[?|?] st1] eqn:E;
      intros [= <- <-]; by eapply readDir_extends.
  - destruct (TerraFs.getAttr net path st) as [[?|?] st1] eqn:E;
      intros [= <- <-]; by eapply getAttr_extends.
  - destruct (TerraFs.open net path fi st) as [[?|?] st1] eqn:E;
      intros [= <- <-]; by eapply open_extends.
  - destruct (TerraFs.read net path size offset fi st) as [[?|?] st1] eqn:E;
      intros [= <- <-]; by eapply read_extends.
  - destruct (TerraFs.release path fi st) as [[?|?] st1] eqn:E;
      intros [= <- <-]; by eapply release_extends.
Qed.

(** Serving a request keeps every buffer it does not release. *)
Lemma serve_heap (r : TerraFs.request) (st st' : State) (x : res unit)
    (p : Z) (c : string) :
  TerraFs.serve net r st = (x, st') →
  (∀ path fi, r = TerraFs.Release path fi → fh fi ≠ p) →
  heap st !! p = Some c → heap st' !! p = Some c.
Proof.
  destruct r as [path|path|path fi|path size offset fi|path fi];
    unfold TerraFs.serve; m_simpl; intros Hs Hr Hp.
  - destruct (TerraFs.readDir net path st) as [[?|?] st1] eqn:E;
      simplify_eq; apply readDir_extends in E as [_ E]; by rewrite E.
  - destruct (TerraFs.getAttr net path st) as [[?|?] st1] eqn:E;
      simplify_eq; apply getAttr_extends in E as [_ E]; by rewrite E.
  - destruct (TerraFs.open net path fi st) as [[?|?] st1] eqn:E;
      simplify_eq; apply open_extends in E as [_ E]; by apply E.
  - destruct (TerraFs.read net path size offset fi st) as [[?|?] st1] eqn:E;
      simplify_eq; apply read_extends in E as [_ E]; by rewrite E.
  - destruct (TerraFs.release path fi st) as [[?|?] st1] eqn:E;
      simplify_eq; apply release_extends in E as [_ E]; apply E; try done;
      intros ->; by eapply Hr.
Qed.

Lemma reaches_extends (st st' : State) : TerraFs.reaches net st st' → extends st st'.
Proof.
  induction 1 as [|r st1 st2 _ IH Hs]; [apply extends_refl|].
  eapply extends_trans; [done|]. by eapply serve_extends.
Qed.

(** What an open handle guarantees: its path still resolves, whatever was
    served since, and its buffer is live. *)
Lemma open_handle_inv (path : string) (p : Z) (st : State) :
  TerraFs.open_handle net path p st →
  (∃ e, resolved path e st) ∧ is_Some (heap st !! p).
Proof.
  induction 1 as [fi fi' st st' Ho <-|r st st' _ [[e He] [c Hc]] Hs Hr].
  - by eapply open_success.
  - split.
    + exists e. eapply resolved_extends; [done|]. by eapply serve_extends.
    + exists c. by eapply serve_heap.
Qed.

Lemma find_in_first_match (es : list DirIndexEntry) (leaf : string) :
  first_match es leaf (DirIndex.find_in es leaf).
Proof.
  induction es as [|e es IH]; simpl; [by constructor|].
  case_decide as He.
  - exists [], es. by repeat split.
  - destruct (DirIndex.find_in es leaf) as [e'|]; simpl in *.
    + destruct IH as (before & after & -> & Hn & Hb).
      exists (e :: before), after. repeat split; [done|]. by constructor.
    + by constructor.
Qed.

(** A parent that is cached as absent stays so: every later lookup under it
    finds nothing and asks the network nothing. *)
Lemma absent_parent_stays (parent leaf : string) (st st' : State) :
  dirIndexCache st !! (baseUrl st +:+ parent) = Some None →
  extends st st' → ¬ occurs slash leaf →
  TerraFs.getDirIndexEntry net (parent +:+ String slash leaf) st' = (Ok None, st').
Proof.
  intros Hc (HB & _ & HC & _) Hleaf. rewrite getDirIndexEntry_split by done.
  rewrite (getDirIndex_hit parent st' None); [done|]. rewrite HB. by apply HC.
Qed.

(** ** The claims on the engine *)

(** C1. A directory URL that is a key of the listing cache, mapped to a
    listing or to the absent marker, is answered from the cache: the cached
    value is returned and the state, with its list of transport requests, is
    unchanged.  For a parent whose URL is not in the cache, resolving two
    leaves under it one after the other makes exactly one transport request,
    for the listing of that parent.  When that request does not return
    status 200 the parent is cached as absent, and in every state reached
    afterwards a lookup under it finds nothing ([open] answers [-ENOENT]) and
    leaves the state, hence the requests, unchanged. *)
Theorem listing_cache_at_most_once :
  (∀ st path v,
     dirIndexCache st !! (baseUrl st +:+ path) = Some v →
     TerraFs.getDirIndex net path st = (Ok v, st))
  ∧ (∀ st parent leaf1 leaf2,
       dirIndexCache st !! (baseUrl st +:+ parent) = None →
       ¬ occurs slash leaf1 → ¬ occurs slash leaf2 →
       requests (snd ((TerraFs.getDirIndexEntry net (parent +:+ String slash leaf1);;
                       TerraFs.getDirIndexEntry net (parent +:+ String slash leaf2)) st))
       = requests st ++ [(baseUrl st +:+ parent) +:+ "/.dirindex"])
  ∧ (∀ st parent,
       dirIndexCache st !! (baseUrl st +:+ parent) = None →
       Curlie.status (net (requests st) ((baseUrl st +:+ parent) +:+ "/.dirindex")) ≠ 200 →
       ∃ st1,
         TerraFs.getDirIndex net parent st = (Ok None, st1)
         ∧ dirIndexCache st1 !! (baseUrl st1 +:+ parent) = Some None
         ∧ requests st1 = requests st ++ [(baseUrl st +:+ parent) +:+ "/.dirindex"]
         ∧ ∀ st2 leaf,
             TerraFs.reaches net st1 st2 → ¬ occurs slash leaf →
             TerraFs.getDirIndexEntry net (parent +:+ String slash leaf) st2 = (Ok None, st2)
             ∧ ∀ fi, Z.land (flags fi) 3 = O_RDONLY →
                     TerraFs.open net (parent +:+ String slash leaf) fi st2
                     = (Ok (- ENOENT, fi), st2)).
Proof.
  split; [|split].
  - intros st path v H. by apply getDirIndex_hit.
  - intros st parent leaf1 leaf2 Hmiss H1 H2.
    unfold mbind, M_bind. rewrite !getDirIndexEntry_split by done.
    destruct (TerraFs.getDirIndex net parent st) as [r st1] eqn:E.
    assert (requests st1 = requests st ++ [(baseUrl st +:+ parent) +:+ "/.dirindex"]
            ∧ baseUrl st1 = baseUrl st) as [Hreq HB].
    { rewrite (getDirIndex_miss _ _ Hmiss) in E. simpl in E.
      case_decide; [destruct (DirIndex.parse _)|]; by simplify_eq. }
    destruct r as [v|f]; [|by destruct st1].
    apply getDirIndex_cached in E.
    assert (TerraFs.getDirIndex net parent st1 = (Ok v, st1)) as E1
      by by apply getDirIndex_hit.
    destruct v as [d|]; rewrite getDirIndexEntry_split, E1 by done; done.
  - intros st parent Hmiss Hstatus.
    pose proof (getDirIndex_miss _ _ Hmiss) as E. simpl in E.
    rewrite decide_False in E by done.
    eexists. split; [exact E|]. simpl. split; [by rewrite lookup_insert_eq|].
    split; [done|]. intros st2 leaf Hreach Hleaf.
    assert (TerraFs.getDirIndexEntry net (parent +:+ String slash leaf) st2
            = (Ok None, st2)) as Hnone.
    { eapply absent_parent_stays; [|by apply reaches_extends|done].
      simpl. by rewrite lookup_insert_eq. }
    split; [done|]. intros fi Hfi. unfold TerraFs.open.
    rewrite decide_False by (by intros []). m_simpl. by rewrite Hnone.
Qed.

(** C2. For every virtual path: when the path has no ['/'], the resolver
    returns absent without touching the state; otherwise the path is
    [parent/leaf] with no ['/'] in [leaf] (a split at the last separator), the
    parent's listing is obtained with [getDirIndex], and the result is absent
    when that listing is absent, else the first entry of the listing, in
    source order, whose name is [leaf], or absent when no entry has that
    name.  A fault of the listing parser ends the call. *)
Theorem resolveEntry_first_match (path : string) (st : State) :
  (¬ occurs slash path ∧ TerraFs.getDirIndexEntry net path st = (Ok None, st))
  ∨ (∃ parent leaf,
       path = parent +:+ String slash leaf ∧ ¬ occurs slash leaf
       ∧ match TerraFs.getDirIndex net parent st with
         | (Ok (Some d), st') =>
             ∃ r, TerraFs.getDirIndexEntry net path st = (Ok r, st')
                  ∧ first_match (DirIndex.getEntries d) leaf r
         | (Ok None, st') => TerraFs.getDirIndexEntry net path st = (Ok None, st')
         | (Fault f, st') => TerraFs.getDirIndexEntry net path st = (Fault f, st')
         end).
Proof.
  destruct (occurs_dec_split path slash) as [Hno|(parent & leaf & -> & Hleaf)].
  - left. split; [done|]. by apply getDirIndexEntry_no_slash.
  - right. exists parent, leaf. split; [done|]. split; [done|].
    rewrite getDirIndexEntry_split by done.
    destruct (TerraFs.getDirIndex net parent st) as [[[d|]|f] st']; try done.
    eexists. split; [done|]. apply find_in_first_match.
Qed.

Lemma copy_out_in_range (content : string) (size offset : Z) :
  0 ≤ offset → 0 ≤ size → offset + size < 2 ^ 64 →
  let len := Z.of_nat (String.length content) in
  let n := if decide (len ≤ offset) then 0 else size `min` (len - offset) in
  TerraFs.copy_out content size offset =
    Ok (to_int n, substr content (Z.to_nat offset) (Z.to_nat n)).
Proof.
  intros Ho Hs Hsum. simpl. unfold TerraFs.copy_out, to_size_t.
  rewrite (Z.mod_small offset) by lia.
  rewrite (Z.mod_small (offset + size)) by lia.
  destruct (decide (Z.of_nat (String.length content) ≤ offset)) as [Hge|Hlt].
  - rewrite decide_False by lia. done.
  - rewrite decide_True by lia. unfold memcpy_from. res_simpl.
    destruct (decide (offset + size > Z.of_nat (String.length content))).
    + rewrite (Z.mod_small (_ - _)) by lia. rewrite decide_True by lia.
      by rewrite Z.min_r by lia.
    + rewrite decide_True by lia. by rewrite Z.min_l by lia.
Qed.

Lemma to_int_small (n : Z) : 0 ≤ n → n ≤ INT_MAX → to_int n = n.
Proof.
  unfold to_int, INT_MAX. intros H0 H1.
  rewrite Z.mod_small by lia. lia.
Qed.

(** C3.  For an open handle with buffered content of length [L] and a
    read-only read at an offset [o] (a non-negative [off_t]): when [o >= L]
    the call returns 0 and copies no byte, for every size; otherwise, for a
    size [s] that a buffer can have (the caller's [buf] holds [s] bytes, so
    [s < 2^63]), it copies exactly [min s (L - o)] bytes, which are the bytes
    of the buffer from offset [o] on, and returns that count (as an [int]:
    the count itself up to [INT_MAX]).  The state is unchanged. *)
Theorem read_within_buffer (path : string) (fi : fuse_file_info) (st : State)
    (content : string) (size offset : Z) :
  TerraFs.open_handle net path (fh fi) st →
  heap st !! fh fi = Some content →
  Z.land (flags fi) 3 = O_RDONLY →
  0 ≤ offset < 2 ^ 63 →
  let L := Z.of_nat (String.length content) in
  (L ≤ offset →
   TerraFs.read net path size offset fi st = (Ok (0, EmptyString), st))
  ∧ (offset < L → 0 ≤ size < 2 ^ 63 →
     let n := size `min` (L - offset) in
     let copied := substr content (Z.to_nat offset) (Z.to_nat n) in
     TerraFs.read net path size offset fi st = (Ok (to_int n, copied), st)
     ∧ Z.of_nat (String.length copied) = n
     ∧ (∀ i, (i < Z.to_nat n)%nat →
             String.get i copied = String.get (Z.to_nat offset + i) content)
     ∧ (n ≤ INT_MAX → to_int n = n)).
Proof.
  intros Hopen Hheap Hflags Ho L.
  destruct (open_handle_inv _ _ _ Hopen) as [[e He] _].
  assert (TerraFs.read net path size offset fi st
          = (TerraFs.copy_out content size offset, st)) as Hread.
  { unfold TerraFs.read. rewrite decide_False by (by intros []).
    m_simpl. rewrite (resolved_getDirIndexEntry _ _ _ He).
    unfold deref_string. rewrite Hheap. by destruct (TerraFs.copy_out _ _ _). }
  rewrite Hread. split.
  - intros Hge. unfold TerraFs.copy_out, to_size_t.
    rewrite (Z.mod_small offset) by lia. fold L. by rewrite decide_False by lia.
  - intros Hlt Hs n copied.
    rewrite copy_out_in_range by lia. fold L. rewrite decide_False by lia.
    fold n. fold copied.
    assert (0 ≤ n ∧ offset + n ≤ L) as [Hn Hfit] by (subst n; lia).
    split; [done|]. split; [|split].
    + subst copied. rewrite length_substr by lia. lia.
    + intros i Hi. subst copied. apply substr_get; [done|lia].
    + intros Hmax. by apply to_int_small.
Qed.

(** C4. [open] answers [-EACCES] for every access mode other than
    read-only, leaving the state as it was (no request, no resolution).  With
    read-only access it answers [-ENOENT] when the resolver returns absent;
    and when the entry is found but the request for [baseUrl + path] does not
    return status 200, it answers [-ENOENT], leaves [fi] untouched and the
    heap as it was after the resolution: the buffer allocated for the
    content is released. *)
Theorem open_errors :
  (∀ path fi st,
     Z.land (flags fi) 3 ≠ O_RDONLY →
     TerraFs.open net path fi st = (Ok (- EACCES, fi), st))
  ∧ (∀ path fi st st1,
       Z.land (flags fi) 3 = O_RDONLY →
       TerraFs.getDirIndexEntry net path st = (Ok None, st1) →
       TerraFs.open net path fi st = (Ok (- ENOENT, fi), st1))
  ∧ (∀ path fi st st1 e,
       Z.land (flags fi) 3 = O_RDONLY →
       TerraFs.getDirIndexEntry net path st = (Ok (Some e), st1) →
       Curlie.status (net (requests st1) (baseUrl st1 +:+ path)) ≠ 200 →
       ∃ st2,
         TerraFs.open net path fi st = (Ok (- ENOENT, fi), st2)
         ∧ heap st2 = heap st
         ∧ requests st2 = requests st1 ++ [baseUrl st1 +:+ path]
         ∧ dirIndexCache st2 = dirIndexCache st1).
Proof.
  split; [|split].
  - intros path fi st Hf. unfold TerraFs.open. by rewrite decide_True.
  - intros path fi st st1 Hf He. unfold TerraFs.open.
    rewrite decide_False by (by intros []). m_simpl. by rewrite He.
  - intros path fi st st1 e Hf He Hstatus.
    rewrite (open_resolved _ _ _ _ _ Hf He). simpl.
    rewrite decide_True by done. eexists. split; [done|]. simpl.
    apply getDirIndexEntry_extends in He as [_ ->]. done.
Qed.

(** C6. In static-root mode [readDir] of ["/"] hands the filler exactly the
    four fixed names, each with a directory mode, and leaves the state, hence
    the list of requests, unchanged.  Without static-root mode the same call
    obtains the listing of ["/"] with [getDirIndex], through the cache:
    [-ENOENT] when it is absent, one record per entry otherwise. *)
Theorem readDir_root :
  (∀ st, staticRoot st = true →
     TerraFs.readDir net "/" st =
       (Ok (0, [("Airports", TerraFs.static_stat); ("Objects", TerraFs.static_stat);
                ("Models", TerraFs.static_stat); ("Terrain", TerraFs.static_stat)]), st))
  ∧ is_directory_mode (st_mode TerraFs.static_stat)
  ∧ (∀ st, staticRoot st = false →
       TerraFs.readDir net "/" st =
         match TerraFs.getDirIndex net "/" st with
         | (Ok (Some d), st') =>
             (Ok (0, (λ e, (getName e, TerraFs.entry_stat e)) <$> DirIndex.getEntries d), st')
         | (Ok None, st') => (Ok (- ENOENT, []), st')
         | (Fault f, st') => (Fault f, st')
         end).
Proof.
  split; [|split].
  - intros st H. unfold TerraFs.readDir. m_simpl. by rewrite H.
  - reflexivity.
  - intros st H. unfold TerraFs.readDir. m_simpl. rewrite H. simpl.
    by destruct (TerraFs.getDirIndex net "/" st) as [[[d|]|f] st'].
Qed.

(** C7, as the code has it.  [getAttr] of ["/"] returns 0 and the fixed
    attributes: a directory mode whose permission bits are 0544, that is
    read and execute for the owner and read only for group and others, link
    count 1, size 0; for every state and every network, and the state, with
    its list of requests, is unchanged. *)
Theorem getAttr_root (st : State) :
  TerraFs.getAttr net "/" st =
    (Ok (0, {| st_mode := Z.lor S_IFDIR (octal 5 4 4); st_nlink := 1; st_size := 0 |}), st)
  ∧ is_directory_mode (Z.lor S_IFDIR (octal 5 4 4))
  ∧ permissions (Z.lor S_IFDIR (octal 5 4 4))
    = Z.lor (Z.lor S_IRUSR S_IXUSR) (Z.lor S_IRGRP S_IROTH).
Proof. split; [|split]; reflexivity. Qed.

Lemma entry_stat_spec (e : DirIndexEntry) :
  is_directory_mode (st_mode (TerraFs.entry_stat e))
  ∧ st_nlink (TerraFs.entry_stat e) = 1
  ∧ st_size (TerraFs.entry_stat e) =
      match e with FileDirIndexEntry _ size => size | DirDirIndexEntry _ => 0 end.
Proof. destruct e; repeat split; reflexivity. Qed.

(** C8. When [readDir] does not take the static-root shortcut and the
    listing of the directory resolves, it returns 0 and hands the filler
    exactly one record per entry, in listing order, under the entry's name:
    a directory entry with a directory mode and size 0, a file entry with a
    directory mode too and the entry's size. *)
Theorem readDir_records (path : string) (st st' : State) (d : DirIndex.t) :
  staticRoot st && bool_decide (path = "/") = false →
  TerraFs.getDirIndex net path st = (Ok (Some d), st') →
  ∃ records,
    TerraFs.readDir net path st = (Ok (0, records), st')
    ∧ length records = length (DirIndex.getEntries d)
    ∧ ∀ (i : nat) e, DirIndex.getEntries d !! i = Some e →
        ∃ s, records !! i = Some (getName e, s)
             ∧ is_directory_mode (st_mode s)
             ∧ st_size s = match e with
                           | FileDirIndexEntry _ size => size
                           | DirDirIndexEntry _ => 0
                           end.
Proof.
  intros Hroot Hd. eexists. split; [|split].
  - unfold TerraFs.readDir. m_simpl. rewrite Hroot, Hd. done.
  - by rewrite length_fmap.
  - intros i e Hi. exists (TerraFs.entry_stat e). rewrite list_lookup_fmap, Hi.
    split; [done|]. destruct (entry_stat_spec e) as (? & _ & ?). done.
Qed.

Lemma getDirIndex_miss_effect (path : string) (st : State) :
  dirIndexCache st !! (baseUrl st +:+ path) = None →
  requests (snd (TerraFs.getDirIndex net path st))
  = requests st ++ [(baseUrl st +:+ path) +:+ "/.dirindex"]
  ∧ ∀ v st1,
      TerraFs.getDirIndex net path st = (Ok v, st1) →
      dirIndexCache st1 = <[baseUrl st +:+ path := v]> (dirIndexCache st)
      ∧ baseUrl st1 = baseUrl st ∧ staticRoot st1 = staticRoot st
      ∧ requests st1 = requests st ++ [(baseUrl st +:+ path) +:+ "/.dirindex"].
Proof.
  intros Hmiss. rewrite (getDirIndex_miss _ _ Hmiss). simpl.
  case_decide; [destruct (DirIndex.parse _)|]; (split; [done|]);
    intros v st1 [= <- <-]; done.
Qed.

Lemma readDir_requests (path : string) (st : State) :
  staticRoot st && bool_decide (path = "/") = false →
  snd (TerraFs.readDir net path st) = snd (TerraFs.getDirIndex net path st).
Proof.
  intros H. unfold TerraFs.readDir. m_simpl. rewrite H.
  by destruct (TerraFs.getDirIndex net path st) as [[[d|]|f] st'].
Qed.

(** C10. Without static-root mode and with neither key in the cache:
    resolving ["/name"] has the empty parent, so it looks up the key
    [baseUrl], requests [baseUrl + "/.dirindex"] and caches the outcome under
    [baseUrl]; [readDir] of ["/"] looks up the different key [baseUrl + "/"]
    and requests [baseUrl + "//.dirindex"].  After both calls the listing of
    the root has been requested twice and the cache holds it under two keys. *)
Theorem root_listing_two_keys (st : State) (name : string) :
  staticRoot st = false →
  ¬ occurs slash name →
  dirIndexCache st !! baseUrl st = None →
  dirIndexCache st !! (baseUrl st +:+ "/") = None →
  baseUrl st ≠ baseUrl st +:+ "/"
  ∧ requests (snd (TerraFs.getDirIndexEntry net (String slash name) st))
    = requests st ++ [baseUrl st +:+ "/.dirindex"]
  ∧ requests (snd (TerraFs.readDir net "/" st))
    = requests st ++ [baseUrl st +:+ "//.dirindex"]
  ∧ ∀ r1 st1,
      TerraFs.getDirIndexEntry net (String slash name) st = (Ok r1, st1) →
      is_Some (dirIndexCache st1 !! baseUrl st)
      ∧ dirIndexCache st1 !! (baseUrl st +:+ "/") = None
      ∧ requests (snd (TerraFs.readDir net "/" st1))
        = requests st ++ [baseUrl st +:+ "/.dirindex"; baseUrl st +:+ "//.dirindex"]
      ∧ ∀ r2 st2,
          TerraFs.readDir net "/" st1 = (Ok r2, st2) →
          is_Some (dirIndexCache st2 !! baseUrl st)
          ∧ is_Some (dirIndexCache st2 !! (baseUrl st +:+ "/")).
Proof.
  intros Hsr Hname Hc1 Hc2.
  assert (baseUrl st ≠ baseUrl st +:+ "/") as Hkey by apply app_cons_neq.
  assert (dirIndexCache st !! (baseUrl st +:+ "") = None) as Hc1'
    by by rewrite app_empty_r.
  destruct (getDirIndex_miss_effect "" st Hc1') as [Hreq1 Hst1].
  rewrite app_empty_r in Hreq1, Hst1.
  assert (∀ st0, snd (TerraFs.getDirIndexEntry net (String slash name) st0)
                 = snd (TerraFs.getDirIndex net "" st0)) as Hsnd.
  { intros st0. change (String slash name) with ("" +:+ String slash name).
    rewrite getDirIndexEntry_split by done.
    by destruct (TerraFs.getDirIndex net "" st0) as [[[d|]|f] st']. }
  split; [done|]. split; [by rewrite Hsnd|]. split.
  { rewrite readDir_requests by (by rewrite Hsr).
    destruct (getDirIndex_miss_effect "/" st Hc2) as [-> _].
    by rewrite app_assoc_str. }
  intros r1 st1 He.
  assert (∃ v, TerraFs.getDirIndex net "" st = (Ok v, st1)) as [v Hv].
  { revert He. change (String slash name) with ("" +:+ String slash name).
    rewrite getDirIndexEntry_split by done.
    destruct (TerraFs.getDirIndex net "" st) as [[[d|]|f] st'];
      intros [= <- <-]; by eexists. }
  destruct (Hst1 _ _ Hv) as (HC & HB & HS & HR).
  assert (dirIndexCache st1 !! (baseUrl st1 +:+ "/") = None) as Hc2'.
  { rewrite HC, HB. by rewrite lookup_insert_ne. }
  destruct (getDirIndex_miss_effect "/" st1 Hc2') as [Hreq2 Hst2].
  split; [rewrite HC, lookup_insert_eq; by eexists|].
  split; [by rewrite <- HB|]. split.
  { rewrite readDir_requests by (by rewrite HS, Hsr).
    rewrite Hreq2, HR, HB, <- app_assoc, app_assoc_str. done. }
  intros r2 st2 Hr.
  assert (∃ w, TerraFs.getDirIndex net "/" st1 = (Ok w, st2)) as [w Hw].
  { revert Hr. unfold TerraFs.readDir. m_simpl. rewrite HS, Hsr. simpl.
    destruct (TerraFs.getDirIndex net "/" st1) as [[[d|]|f] st'];
      intros [= <- <-]; by eexists. }
  destruct (Hst2 _ _ Hw) as (HC2 & _). rewrite HC2, HC, HB. split.
  - rewrite lookup_insert_ne by done. rewrite lookup_insert_eq. by eexists.
  - rewrite lookup_insert_eq. by eexists.
Qed.

End Properties.

(** * Instances on the small remote tree *)

Ltac no_slash := simpl; intuition discriminate.

Lemma demo_open :
  TerraFs.open demo_net "/a.txt" {| flags := O_RDONLY; fh := 0 |} demo_fs
  = (Ok (0, demo_fi), demo_opened).
Proof. vm_compute. reflexivity. Qed.

Lemma demo_handle : TerraFs.open_handle demo_net "/a.txt" (fh demo_fi) demo_opened.
Proof. eapply TerraFs.handle_opened; [apply demo_open|reflexivity]. Qed.

(** The three parts of C1 on the small tree: the cached root listing is
    answered from the cache; two leaves under the unseen parent [/Sub] cost
    one request; the 404 for [/Sub] is cached as absent. *)
Lemma listing_cache_at_most_once_witness :
  TerraFs.getDirIndex demo_net "" demo_opened = (Ok (Some demo_listing), demo_opened)
  ∧ requests (snd ((TerraFs.getDirIndexEntry demo_net "/Sub/a";;
                    TerraFs.getDirIndexEntry demo_net "/Sub/b") demo_fs))
    = ["http://host/Sub/.dirindex"]
  ∧ ∃ st1,
      TerraFs.getDirIndex demo_net "/Sub" demo_fs = (Ok None, st1)
      ∧ dirIndexCache st1 !! "http://host/Sub" = Some None.
Proof.
  destruct (listing_cache_at_most_once demo_net) as (Hhit & Htwice & Habsent).
  split; [|split].
  - apply Hhit. vm_compute. reflexivity.
  - apply (Htwice demo_fs "/Sub" "a" "b"); [vm_compute; reflexivity|no_slash|no_slash].
  - destruct (Habsent demo_fs "/Sub") as (st1 & H1 & H2 & _).
    + vm_compute. reflexivity.
    + vm_compute. discriminate.
    + exists st1. split; [exact H1|].
      replace (baseUrl st1) with "http://host" in H2; [exact H2|].
      apply getDirIndex_extends in H1 as [(HB & _) _]. rewrite HB. reflexivity.
Defined.

(** C3 on the ten-byte file: a read of size 10 at offset 7, three bytes
    before the end, returns 3 and copies the last three bytes. *)
Lemma read_within_buffer_witness :
  TerraFs.read demo_net "/a.txt" 10 7 demo_fi demo_opened = (Ok (3, "789"), demo_opened).
Proof.
  destruct (read_within_buffer demo_net "/a.txt" demo_fi demo_opened "0123456789" 10 7)
    as [_ H].
  - eapply TerraFs.handle_opened with (fi := {| flags := O_RDONLY; fh := 0 |})
                                     (st := demo_fs);
      [vm_compute; reflexivity|reflexivity].
  - vm_compute. reflexivity.
  - reflexivity.
  - lia.
  - destruct H as [H _]; [simpl; lia|lia|exact H].
Defined.

(** The three parts of C4 on the small tree: write access is refused; a
    missing entry is [-ENOENT]; the directory [Sub] is listed but its content
    URL answers 404, so the open fails and the heap stays empty. *)
Lemma open_errors_witness :
  TerraFs.open demo_net "/a.txt" {| flags := 1; fh := 0 |} demo_fs
  = (Ok (- EACCES, {| flags := 1; fh := 0 |}), demo_fs)
  ∧ fst (TerraFs.open demo_net "/missing" {| flags := 0; fh := 0 |} demo_fs)
    = Ok (- ENOENT, {| flags := 0; fh := 0 |})
  ∧ ∃ st2, TerraFs.open demo_net "/Sub" {| flags := 0; fh := 0 |} demo_fs
           = (Ok (- ENOENT, {| flags := 0; fh := 0 |}), st2)
           ∧ heap st2 = ∅.
Proof.
  destruct (open_errors demo_net) as (Hacc & Hnone & Hfetch).
  split; [|split].
  - apply Hacc. vm_compute. discriminate.
  - erewrite Hnone; [reflexivity|reflexivity|].
    vm_compute. reflexivity.
  - destruct (Hfetch "/Sub" {| flags := 0; fh := 0 |} demo_fs
                (snd (TerraFs.getDirIndexEntry demo_net "/Sub" demo_fs))
                (DirDirIndexEntry "Sub")) as (st2 & H1 & H2 & _).
    + reflexivity.
    + vm_compute. reflexivity.
    + vm_compute. discriminate.
    + exists st2. split; [exact H1|exact H2].
Defined.

(** C6 on the small tree, with and without static-root mode. *)
Lemma readDir_root_witness :
  fst (TerraFs.readDir demo_net "/" demo_static_fs)
  = Ok (0, [("Airports", TerraFs.static_stat); ("Objects", TerraFs.static_stat);
            ("Models", TerraFs.static_stat); ("Terrain", TerraFs.static_stat)])
  ∧ requests (snd (TerraFs.readDir demo_net "/" demo_static_fs)) = []
  ∧ TerraFs.readDir demo_net "/" demo_fs
    = (Ok (- ENOENT, []),
       snd (TerraFs.getDirIndex demo_net "/" demo_fs)).
Proof.
  destruct (readDir_root demo_net) as (Hstatic & _ & Hreal).
  split; [|split].
  - rewrite Hstatic; reflexivity.
  - rewrite Hstatic; reflexivity.
  - rewrite Hreal; [|reflexivity]. vm_compute. reflexivity.
Defined.

(** C7 as stated fails: the mode [getAttr] returns for ["/"] has no execute
    permission for group and others. *)
Lemma getAttr_root_not_rx_for_all :
  ∃ s, TerraFs.getAttr demo_net "/" demo_fs = (Ok (0, s), demo_fs)
       ∧ ¬ rx_for_all (st_mode s).
Proof. eexists. split; [reflexivity|]. vm_compute. discriminate. Qed.

(** C8 on the small tree: the root listing read through the key [baseUrl]. *)
Lemma readDir_records_witness :
  ∃ records,
    fst (TerraFs.readDir demo_net "" demo_fs) = Ok (0, records)
    ∧ length records = 2%nat.
Proof.
  destruct (readDir_records demo_net "" demo_fs
              (snd (TerraFs.getDirIndex demo_net "" demo_fs)) demo_listing)
    as (records & H1 & H2 & _).
  - reflexivity.
  - vm_compute. reflexivity.
  - exists records. rewrite H1. split; [reflexivity|exact H2].
Defined.

(** C10 on the small tree: [/a.txt] then the root directory. *)
Lemma root_listing_two_keys_witness :
  requests (snd (TerraFs.getDirIndexEntry demo_net "/a.txt" demo_fs))
  = ["http://host/.dirindex"]
  ∧ requests (snd (TerraFs.readDir demo_net "/" demo_fs))
    = ["http://host//.dirindex"].
Proof.
  destruct (root_listing_two_keys demo_net demo_fs "a.txt") as (_ & H1 & H2 & _).
  - reflexivity.
  - no_slash.
  - vm_compute. reflexivity.
  - vm_compute. reflexivity.
  - split; [exact H1|exact H2].
Defined.

(** * Further properties of the parser *)

Lemma split_cons_item (item t : string) (delim : ascii) :
  ¬ occurs delim item →
  split (item +:+ String delim t) delim = item :: split t delim.
Proof.
  induction item as [|a item IH]; intros Hno.
  - simpl. by rewrite decide_True.
  - rewrite app_cons. simpl in *. rewrite decide_False by tauto.
    rewrite IH by tauto. done.
Qed.

Lemma split_single (item : string) (delim : ascii) :
  item ≠ EmptyString → ¬ occurs delim item → split item delim = [item].
Proof.
  induction item as [|a item IH]; [done|]. intros _ Hno. simpl in *.
  rewrite decide_False by tauto.
  destruct item as [|b item]; [done|]. rewrite IH; [done|done|tauto].
Qed.

Lemma occurs_app (c : ascii) (s t : string) :
  occurs c (s +:+ t) ↔ occurs c s ∨ occurs c t.
Proof.
  induction s as [|a s IH]; simpl; [tauto|]. rewrite IH. tauto.
Qed.

Lemma split_items_no_delim (s : string) (delim : ascii) :
  Forall (λ item, ¬ occurs delim item) (split s delim).
Proof.
  induction s as [|a s IH]; simpl; [constructor|].
  case_decide as Ha.
  - constructor; [by intros []|done].
  - destruct (split s delim) as [|item elems].
    + constructor; [|constructor]. simpl. tauto.
    + apply Forall_cons in IH as [Hi He]. constructor; [|done]. simpl. tauto.
Qed.

Lemma ends_with_cons (a b : ascii) (s : string) (c : ascii) :
  ends_with (String a (String b s)) c = ends_with (String b s) c.
Proof. reflexivity. Qed.

Lemma unsplit_split (s : string) (delim : ascii) :
  unsplit (split s delim) delim =
    if ends_with s delim || bool_decide (s = EmptyString) then s
    else s +:+ String delim EmptyString.
Proof.
  induction s as [|a s IH]; [done|].
  simpl split. destruct (decide (a = delim)) as [->|Ha].
  - simpl unsplit. rewrite IH. destruct s as [|b s].
    + simpl. by rewrite bool_decide_eq_true_2.
    + rewrite ends_with_cons.
      rewrite !(bool_decide_eq_false_2 (String _ _ = EmptyString)) by done.
      rewrite !orb_false_r. by destruct (ends_with (String b s) delim).
  - destruct s as [|b s].
    + simpl. by rewrite bool_decide_eq_false_2.
    + destruct (split (String b s) delim) as [|item elems] eqn:E.
      { by apply split_nil in E. }
      simpl unsplit in *. rewrite app_cons, IH, ends_with_cons.
      rewrite !(bool_decide_eq_false_2 (String _ _ = EmptyString)) by done.
      rewrite !orb_false_r. by destruct (ends_with (String b s) delim).
Qed.

(** X1. [split] cuts a string at every delimiter: no item contains the
    delimiter, and the items, each followed by the delimiter, give the string
    back, with one delimiter added at the end when the string is not empty
    and did not end with one.  So a final delimiter makes no item, and an
    empty string has no items. *)
Theorem split_cuts_at_delimiters (s : string) (delim : ascii) :
  Forall (λ item, ¬ occurs delim item) (split s delim)
  ∧ unsplit (split s delim) delim =
      (if ends_with s delim || bool_decide (s = EmptyString) then s
       else s +:+ String delim EmptyString)
  ∧ (split s delim = [] ↔ s = EmptyString).
Proof.
  split; [apply split_items_no_delim|]. split; [apply unsplit_split|apply split_nil].
Qed.

Lemma split_unsplit_items (items : list string) (delim : ascii) :
  Forall (λ item, ¬ occurs delim item) items →
  split (unsplit items delim) delim = items.
Proof.
  induction 1 as [|item rest Hi _ IH]; [done|].
  simpl. by rewrite split_cons_item, IH.
Qed.

(** X2. Joining and splitting round-trips: items without the delimiter,
    each written with the delimiter after it, are what [split] returns, empty
    items included. *)
Theorem split_inverts_unsplit (items : list string) (delim : ascii) :
  Forall (λ item, ¬ occurs delim item) items →
  split (unsplit items delim) delim = items.
Proof. apply split_unsplit_items. Qed.

Lemma split_inverts_unsplit_witness :
  split (unsplit ["f"; ""; "a.txt"] colon) colon = ["f"; ""; "a.txt"].
Proof.
  apply (split_inverts_unsplit ["f"; ""; "a.txt"] colon).
  repeat constructor; simpl; intuition discriminate.
Defined.

(** The conversion of a well-shaped token, in or out of range. *)
Lemma stol_shape (ws sign ds rest : string) :
  all_chars isspace ws = true →
  sign = EmptyString ∨ sign = "+" ∨ sign = "-" →
  ds ≠ EmptyString → all_chars is_digit ds = true →
  starts_with_digit rest = false →
  let v := if decide (sign = "-") then - decimal ds else decimal ds in
  stol (ws +:+ sign +:+ ds +:+ rest) =
    if decide (LONG_MIN ≤ v ≤ LONG_MAX) then Ok v else Fault OutOfRange.
Proof.
  intros Hws Hsign Hne Hds Hrest v. unfold stol.
  assert (skip_spaces (ws +:+ sign +:+ ds +:+ rest) = sign +:+ ds +:+ rest) as ->.
  { apply skip_spaces_app; [done|].
    destruct Hsign as [->|[->| ->]]; [|done|done].
    destruct ds as [|c ds]; [done|]. simpl in *.
    apply andb_true_iff in Hds as [Hc _]. by apply digit_not_space. }
  assert (strip_sign (sign +:+ ds +:+ rest)
          = (bool_decide (sign = "-"), ds +:+ rest)) as ->.
  { destruct Hsign as [->|[->| ->]]; [|done|done].
    destruct ds as [|c ds]; [done|]. simpl in *.
    apply andb_true_iff in Hds as [Hc _].
    apply digit_not_sign in Hc as [Hp Hm].
    by destruct c as [[] [] [] [] [] [] [] []]. }
  rewrite starts_with_digit_app by done.
  rewrite (read_digits_app _ _ _ Hds Hrest). simpl. subst v.
  rewrite Z.mul_0_l, Z.add_0_l.
  case_bool_decide;
    [rewrite !(decide_True (P := sign = "-")) by done
    |rewrite !(decide_False (P := sign = "-")) by done];
    (destruct (_ && _) eqn:Hr;
     [apply andb_true_iff in Hr as [?%Z.leb_le ?%Z.leb_le]; by rewrite decide_True
     |apply andb_false_iff in Hr as [?%Z.leb_gt|?%Z.leb_gt];
        rewrite decide_False by lia; done]).
Qed.

(** X3. The size of a file entry is read leniently: when the fourth token
    of the line is white space, an optional sign, a non-empty run of digits
    and a rest that does not start with a digit, the constructor ignores the
    rest and stores the signed decimal value of the digits modulo [2^32],
    provided the value fits [long]; otherwise the conversion throws
    out-of-range. *)
Theorem file_entry_size (data : list string) (name ws sign ds rest : string) :
  data !! 1%nat = Some name →
  data !! 3%nat = Some (ws +:+ sign +:+ ds +:+ rest) →
  all_chars isspace ws = true →
  sign = EmptyString ∨ sign = "+" ∨ sign = "-" →
  ds ≠ EmptyString → all_chars is_digit ds = true →
  starts_with_digit rest = false →
  let v := if decide (sign = "-") then - decimal ds else decimal ds in
  new_FileDirIndexEntry data =
    if decide (LONG_MIN ≤ v ≤ LONG_MAX)
    then Ok (FileDirIndexEntry name (v `mod` 2 ^ 32))
    else Fault OutOfRange.
Proof.
  intros H1 H3 Hws Hsign Hne Hds Hrest v.
  unfold new_FileDirIndexEntry, vec_at. rewrite H1, H3. res_simpl.
  rewrite stol_shape by done. fold v. by case_decide.
Qed.

Lemma file_entry_size_witness :
  new_FileDirIndexEntry ["f"; "a.txt"; "x"; " -1 bytes"]
  = Ok (FileDirIndexEntry "a.txt" 4294967295).
Proof.
  apply (file_entry_size ["f"; "a.txt"; "x"; " -1 bytes"] "a.txt" " " "-" "1" " bytes");
    [reflexivity|reflexivity|reflexivity|auto|discriminate|reflexivity|reflexivity].
Defined.

(** What one line adds to the entries. *)
Lemma parse_line_entries (d d' : DirIndex.t) (line : string) :
  DirIndex.parse_line d line = Ok d' →
  ∃ es, DirIndex.entries d' = DirIndex.entries d ++ es
        ∧ getName <$> es = option_list (listed_name line)
        ∧ Forall size_in_range es.
Proof.
  unfold DirIndex.parse_line, listed_name.
  unfold new_DirDirIndexEntry, new_FileDirIndexEntry, vec_at.
  destruct (split line colon) as [|t0 ts]; [done|]. res_simpl.
  destruct (decide (t0 = "version")) as [->|Hv].
  { destruct ts as [|t1 ts]; simpl; [done|]. destruct (stol t1); simpl; [|done].
    intros [= <-]. exists []. simpl. rewrite app_nil_r. by repeat split. }
  destruct (decide (t0 = "path")) as [->|Hp].
  { case_decide; (destruct ts as [|t1 ts]; simpl in *; try lia); intros [= <-];
      exists []; simpl; rewrite app_nil_r; by repeat split. }
  destruct (decide (t0 = "d")) as [->|Hd].
  { destruct ts as [|t1 ts]; simpl; [done|]. intros [= <-].
    exists [DirDirIndexEntry t1]. simpl. by repeat constructor. }
  destruct (decide (t0 = "f")) as [->|Hf].
  { destruct ts as [|t1 [|t2 [|t3 ts]]]; simpl; try done.
    destruct (stol t3); simpl; [|done]. intros [= <-].
    exists [FileDirIndexEntry t1 (to_unsigned a)]. simpl.
    split; [done|]. split; [done|]. repeat constructor; unfold to_unsigned.
    - apply Z.mod_pos_bound. lia.
    - apply Z.mod_pos_bound. lia. }
  intros [= <-]. exists []. rewrite app_nil_r.
  split; [done|]. split; [|done].
  destruct ts as [|t1 ts]; [done|]. rewrite decide_False; [done|]. by intros [?|?].
Qed.

Lemma parse_lines_entries (lines : list string) (d d' : DirIndex.t) :
  DirIndex.parse_lines d lines = Ok d' →
  ∃ es, DirIndex.entries d' = DirIndex.entries d ++ es
        ∧ getName <$> es = omap listed_name lines
        ∧ Forall size_in_range es.
Proof.
  revert d. induction lines as [|line rest IH]; intros d; simpl.
  - intros [= <-]. exists []. rewrite app_nil_r. by repeat split.
  - res_simpl. destruct (DirIndex.parse_line d line) as [d1|] eqn:E; simpl; [|done].
    intros Hrest. apply parse_line_entries in E as (es1 & H1 & N1 & S1).
    apply IH in Hrest as (es2 & H2 & N2 & S2).
    exists (es1 ++ es2). rewrite H2, H1, <- (assoc_L (++)). split; [done|].
    split; [|by apply Forall_app].
    rewrite fmap_app, N1, N2. by destruct (listed_name line).
Qed.

(** X4. The entries of a parsed listing are the [d] and [f] lines of the
    text, in the order of the text: their names are the second tokens of
    those lines, and no other line (version, path, unknown record types)
    contributes an entry.  Nothing is removed for a repeated name. *)
Theorem parse_entries_in_order (data : string) (d : DirIndex.t) :
  DirIndex.parse data = Ok d →
  getName <$> DirIndex.getEntries d = omap listed_name (split data nl).
Proof.
  intros H. apply parse_lines_entries in H as (es & H1 & H2 & _).
  unfold DirIndex.getEntries. rewrite H1. done.
Qed.

Lemma parse_entries_in_order_witness :
  getName <$> DirIndex.getEntries demo_listing
  = omap listed_name (split ("version:1" +:+ String nl "d:Sub" +:+ String nl "f:a.txt:x:10") nl).
Proof.
  apply (parse_entries_in_order
           ("version:1" +:+ String nl "d:Sub" +:+ String nl "f:a.txt:x:10") demo_listing).
  reflexivity.
Defined.

(** X5. The size of every file entry of a parsed listing lies in
    [0, 2^32): the number read by [stol] is stored in an [unsigned], so a
    size of 4 GiB or more, or a negative one, is kept modulo [2^32]. *)
Theorem parsed_sizes_are_unsigned (data : string) (d : DirIndex.t) :
  DirIndex.parse data = Ok d → Forall size_in_range (DirIndex.getEntries d).
Proof.
  intros H. apply parse_lines_entries in H as (es & H1 & _ & H2).
  unfold DirIndex.getEntries. rewrite H1. done.
Qed.

Lemma parsed_sizes_are_unsigned_witness :
  Forall size_in_range
    [DirDirIndexEntry "Sub"; FileDirIndexEntry "big" 705032704;
     FileDirIndexEntry "neg" 4294967295].
Proof.
  apply (parsed_sizes_are_unsigned
           ("d:Sub" +:+ String nl "f:big:x:5000000000" +:+ String nl "f:neg:x:-1")
           {| DirIndex.version := None; DirIndex.path := EmptyString;
              DirIndex.entries :=
                [DirDirIndexEntry "Sub"; FileDirIndexEntry "big" 705032704;
                 FileDirIndexEntry "neg" 4294967295] |}).
  reflexivity.
Defined.

Lemma find_in_Some (es : list DirIndexEntry) (name : string) (e : DirIndexEntry) :
  DirIndex.find_in es name = Some e → e ∈ es ∧ getName e = name.
Proof.
  induction es as [|x es IH]; simpl; [done|]. case_decide.
  - intros [= <-]. split; [by left|done].
  - intros H'. destruct (IH H') as [? ?]. split; [by right|done].
Qed.

Lemma find_in_None (es : list DirIndexEntry) (name : string) :
  DirIndex.find_in es name = None ↔ name ∉ getName <$> es.
Proof.
  induction es as [|x es IH]; simpl.
  - split; [intros _; apply not_elem_of_nil|done].
  - rewrite not_elem_of_cons. case_decide as Hx.
    + split; [done|]. intros [Hne _]. by destruct Hne.
    + rewrite IH. split; [by split|by intros []].
Qed.

Lemma find_in_NoDup (es : list DirIndexEntry) (e : DirIndexEntry) :
  NoDup (getName <$> es) → e ∈ es → DirIndex.find_in es (getName e) = Some e.
Proof.
  induction es as [|x es IH]; intros Hnd He.
  - by apply elem_of_nil in He.
  - simpl in *. apply NoDup_cons in Hnd as [Hx Hnd].
    apply elem_of_cons in He as [->|He]; [by rewrite decide_True|].
    rewrite decide_False; [by apply IH|].
    intros Heq. apply Hx. rewrite Heq. by apply list_elem_of_fmap_2.
Qed.

(** X6. Lookup by name in a listing: [find] returns nothing exactly when
    no entry has the name; what it returns is an entry of the listing with
    that name; and in a listing whose names are distinct every entry is found
    under its own name. *)
Theorem find_by_name (d : DirIndex.t) :
  (∀ name, DirIndex.find d name = None ↔ name ∉ getName <$> DirIndex.getEntries d)
  ∧ (∀ name e, DirIndex.find d name = Some e →
               e ∈ DirIndex.getEntries d ∧ getName e = name)
  ∧ (NoDup (getName <$> DirIndex.getEntries d) →
     ∀ e, e ∈ DirIndex.getEntries d → DirIndex.find d (getName e) = Some e).
Proof.
  unfold DirIndex.find, DirIndex.getEntries.
  split; [intros name; apply find_in_None|]. split; [intros name e; apply find_in_Some|].
  intros Hnd e He. by apply find_in_NoDup.
Qed.

Lemma find_by_name_witness :
  DirIndex.find demo_listing "a.txt" = Some (FileDirIndexEntry "a.txt" 10).
Proof.
  destruct (find_by_name demo_listing) as (_ & _ & H).
  apply (H ltac:(refine (bool_decide_unpack _ _); vm_compute; exact I)
           (FileDirIndexEntry "a.txt" 10)).
  refine (bool_decide_unpack _ _). vm_compute. exact I.
Defined.

Lemma digits_without (ds : string) (c : ascii) :
  all_chars is_digit ds = true → is_digit c = false → ¬ occurs c ds.
Proof.
  intros Hds Hc. induction ds as [|a ds IH]; simpl in *; [tauto|].
  apply andb_true_iff in Hds as [Ha Hds]. intros [->|H]; [congruence|by apply IH].
Qed.

Lemma digit_range (c : ascii) (d : Z) : digit c = Some d → 0 ≤ d ≤ 9.
Proof.
  unfold digit. destruct (_ && _)%nat eqn:E; [|done]. intros [= <-].
  apply andb_true_iff in E as [?%Nat.leb_le ?%Nat.leb_le]. lia.
Qed.

Lemma decimal_nonneg (ds : string) : all_chars is_digit ds = true → 0 ≤ decimal ds.
Proof.
  induction ds as [|c ds IH]; simpl; [done|]. intros H.
  apply andb_true_iff in H as [Hc Hds]. unfold is_digit in Hc.
  apply bool_decide_eq_true in Hc as [d Hd]. rewrite Hd. simpl.
  apply digit_range in Hd. specialize (IH Hds).
  assert (0 ≤ 10 ^ Z.of_nat (String.length ds)) by (apply Z.pow_nonneg; lia). nia.
Qed.

Lemma stol_digits (ds : string) :
  ds ≠ EmptyString → all_chars is_digit ds = true → decimal ds ≤ LONG_MAX →
  stol ds = Ok (decimal ds).
Proof.
  intros Hne Hds Hmax.
  pose proof (stol_shape EmptyString EmptyString ds EmptyString eq_refl
                (or_introl eq_refl) Hne Hds eq_refl) as H.
  rewrite !app_empty_l, app_empty_r in H. simpl in H. rewrite H.
  pose proof (decimal_nonneg ds Hds). unfold LONG_MIN.
  rewrite decide_True; [done|lia].
Qed.

Lemma parse_line_render (d : DirIndex.t) (r : listing_record) :
  record_ok r →
  DirIndex.parse_line d (render_record r) =
    Ok {| DirIndex.version := DirIndex.version d; DirIndex.path := DirIndex.path d;
          DirIndex.entries := DirIndex.entries d ++ [entry_of_record r] |}.
Proof.
  intros (Hne & Hcolon & _ & Hr). unfold DirIndex.parse_line.
  destruct r as [name|name ds]; simpl in Hne, Hcolon, Hr.
  - replace (render_record (RecDir name)) with ("d" +:+ String colon name)
      by reflexivity.
    rewrite split_cons_item by (simpl; intuition discriminate).
    rewrite split_single by done. reflexivity.
  - destruct Hr as (Hds0 & Hds & Hmax).
    replace (render_record (RecFile name ds))
      with ("f" +:+ String colon (name +:+ String colon ("x" +:+ String colon ds)))
      by reflexivity.
    rewrite split_cons_item by (simpl; intuition discriminate).
    rewrite split_cons_item by done.
    rewrite split_cons_item by (simpl; intuition discriminate).
    rewrite split_single by (by try apply digits_without).
    unfold new_FileDirIndexEntry, vec_at. res_simpl.
    rewrite stol_digits by done. reflexivity.
Qed.

Lemma render_record_one_line (r : listing_record) :
  record_ok r → ¬ occurs nl (render_record r).
Proof.
  intros (_ & _ & Hnl & Hr).
  destruct r as [name|name ds]; unfold render_record; simpl in Hnl, Hr;
    rewrite !occurs_app; simpl.
  - intuition discriminate.
  - destruct Hr as (_ & Hds & _).
    pose proof (digits_without ds nl Hds eq_refl). intuition discriminate.
Qed.

Lemma parse_lines_render (rs : list listing_record) (d : DirIndex.t) :
  Forall record_ok rs →
  DirIndex.parse_lines d (render_record <$> rs) =
    Ok {| DirIndex.version := DirIndex.version d; DirIndex.path := DirIndex.path d;
          DirIndex.entries := DirIndex.entries d ++ (entry_of_record <$> rs) |}.
Proof.
  intros H. revert d. induction H as [|r rs Hr _ IH]; intros d; simpl.
  - rewrite app_nil_r. by destruct d.
  - res_simpl. rewrite parse_line_render by done. simpl. rewrite IH. simpl.
    by rewrite <- (assoc_L (++)).
Qed.

Lemma parse_rendered_text (rs : list listing_record) :
  Forall record_ok rs →
  DirIndex.parse (render rs) =
    Ok {| DirIndex.version := None; DirIndex.path := EmptyString;
          DirIndex.entries := entry_of_record <$> rs |}.
Proof.
  intros H. unfold DirIndex.parse, render.
  rewrite split_unsplit_items.
  - by rewrite parse_lines_render.
  - apply Forall_fmap. eapply Forall_impl; [done|]. apply render_record_one_line.
Qed.

(** X7. The parser reads back the listing format: a text with one line
    [d:<name>] or [f:<name>:x:<digits>] per record, each ended by a newline,
    parses to exactly the entries of the records, in order, the size of a
    file being the value of its digits modulo [2^32].  The names are not
    empty and hold no colon and no newline; the digits fit a [long]. *)
Theorem parse_render (rs : list listing_record) :
  Forall record_ok rs →
  DirIndex.parse (render rs) =
    Ok {| DirIndex.version := None; DirIndex.path := EmptyString;
          DirIndex.entries := entry_of_record <$> rs |}.
Proof. intros H. by apply parse_rendered_text. Qed.

Lemma parse_render_witness :
  DirIndex.parse (render [RecDir "Sub"; RecFile "a.txt" "42"]) =
    Ok {| DirIndex.version := None; DirIndex.path := EmptyString;
          DirIndex.entries := [DirDirIndexEntry "Sub"; FileDirIndexEntry "a.txt" 42] |}.
Proof.
  apply (parse_render [RecDir "Sub"; RecFile "a.txt" "42"]).
  repeat constructor; simpl; try discriminate; try (intuition discriminate).
Defined.

(** * Further properties of the transport and the open files *)

Lemma take_str_all (s : string) : take_str (String.length s) s = s.
Proof. induction s as [|c s IH]; simpl; [done|]. by rewrite IH. Qed.

Lemma take_str_app (s t : string) : take_str (String.length s) (s +:+ t) = s.
Proof. induction s as [|c s IH]; simpl; [by destruct t|]. by rewrite IH. Qed.

(** X8. The write callback of the transfer consumes the whole buffer it
    is handed: with [size * nmemb] bytes at [ptr] (the product in the range
    of [size_t]) it appends exactly these bytes to the content and returns
    their number, so the transfer is never cut short; two calls in a row
    leave the first buffer followed by the second. *)
Theorem write_callback_appends (ptr ptr2 : string) (size nmemb size2 nmemb2 : Z)
    (ud : string) :
  size * nmemb = Z.of_nat (String.length ptr) → size * nmemb < 2 ^ 64 →
  size2 * nmemb2 = Z.of_nat (String.length ptr2) → size2 * nmemb2 < 2 ^ 64 →
  get_directory_write_callback ptr size nmemb ud = Ok (size * nmemb, ud +:+ ptr)
  ∧ ('(_, ud1) ← get_directory_write_callback ptr size nmemb ud;
     get_directory_write_callback ptr2 size2 nmemb2 ud1)
    = Ok (size2 * nmemb2, ud +:+ ptr +:+ ptr2).
Proof.
  intros H1 B1 H2 B2.
  assert (∀ p sz nm u, sz * nm = Z.of_nat (String.length p) → sz * nm < 2 ^ 64 →
            get_directory_write_callback p sz nm u = Ok (sz * nm, u +:+ p)) as Hcall.
  { intros p sz nm u Hp Hb. unfold get_directory_write_callback, to_size_t.
    rewrite Z.mod_small by lia. rewrite decide_True by lia.
    by rewrite Hp, Nat2Z.id, take_str_all. }
  split; [by apply Hcall|]. res_simpl. rewrite Hcall by done. simpl.
  rewrite Hcall by done. by rewrite app_assoc_str.
Qed.

Lemma write_callback_appends_witness :
  get_directory_write_callback "d:Sub" 1 5 "version:1;" = Ok (5, "version:1;d:Sub").
Proof.
  destruct (write_callback_appends "d:Sub" "" 1 5 1 0 "version:1;") as [H _];
    [reflexivity|reflexivity|reflexivity|reflexivity|exact H].
Defined.

(** * Further properties of the filesystem object *)

Section Further.

Context (net : list string → string → CurlOutcome).

Ltac m_unfold :=
  unfold mbind, mret, M_bind, M_ret, get, modify, lift, Curlie.getFile in *;
  simpl in *.

Lemma getDirIndex_stable (path : string) (st st1 st2 : State) (v : option DirIndex.t) :
  TerraFs.getDirIndex net path st = (Ok v, st1) → extends st1 st2 →
  TerraFs.getDirIndex net path st2 = (Ok v, st2).
Proof.
  intros H (HB & _ & HC & _). apply getDirIndex_cached in H.
  apply getDirIndex_hit. rewrite HB. by apply HC.
Qed.

Lemma getDirIndexEntry_stable (path : string) (st st1 st2 : State)
    (r : option DirIndexEntry) :
  TerraFs.getDirIndexEntry net path st = (Ok r, st1) → extends st1 st2 →
  TerraFs.getDirIndexEntry net path st2 = (Ok r, st2).
Proof.
  unfold TerraFs.getDirIndexEntry. destruct (find_last_of path slash) as [last|].
  - m_unfold. intros H Hext.
    destruct (TerraFs.getDirIndex net _ st) as [[v|f] st'] eqn:E; [|by destruct f].
    assert (st' = st1) as -> by (by destruct v; simplify_eq).
    rewrite (getDirIndex_stable _ _ _ _ _ E Hext). by destruct v; simplify_eq.
  - by intros [= <- <-] _.
Qed.

Lemma readDir_stable (path : string) (st st1 st2 : State)
    (r : Z * list (string * stat)) :
  TerraFs.readDir net path st = (Ok r, st1) → extends st1 st2 →
  TerraFs.readDir net path st2 = (Ok r, st2).
Proof.
  intros H Hext. pose proof (readDir_extends _ _ _ _ _ H) as [(_ & HS & _) _].
  destruct Hext as (HB & HS2 & HC & HR).
  revert H. unfold TerraFs.readDir. m_unfold. rewrite HS2, HS.
  destruct (staticRoot st && bool_decide (path = "/")); [by intros [= <- <-]|].
  destruct (TerraFs.getDirIndex net path st) as [[v|f] st'] eqn:E; [|done].
  intros H. assert (st' = st1) as -> by (by destruct v; simplify_eq).
  rewrite (getDirIndex_stable _ _ _ st2 _ E) by done. by destruct v; simplify_eq.
Qed.

Lemma getAttr_stable (path : string) (st st1 st2 : State) (r : Z * stat) :
  TerraFs.getAttr net path st = (Ok r, st1) → extends st1 st2 →
  TerraFs.getAttr net path st2 = (Ok r, st2).
Proof.
  intros H Hext. pose proof (getAttr_extends _ _ _ _ _ H) as [(_ & HS & _) _].
  pose proof Hext as (HB & HS2 & HC & HR).
  revert H. unfold TerraFs.getAttr. m_unfold. rewrite HS2, HS.
  destruct (decide (path = "/")); [by intros [= <- <-]|].
  destruct (staticRoot st && _); [by intros [= <- <-]|].
  destruct (TerraFs.getDirIndexEntry net path st) as [[e|f] st'] eqn:E; [|done].
  intros H. assert (st' = st1) as ->.
  { destruct e as [e|]; [destruct (TerraFs.as_file e); [|destruct (TerraFs.as_dir e)]|];
      by simplify_eq. }
  rewrite (getDirIndexEntry_stable _ _ _ st2 _ E) by done.
  destruct e as [e|]; [destruct (TerraFs.as_file e); [|destruct (TerraFs.as_dir e)]|];
    by simplify_eq.
Qed.

(** X9. Answers never change: once [getAttr], [readDir] or the resolver
    has returned for a path, the same call returns the same result in every
    state reached afterwards, whatever was served in between, and leaves that
    state as it is, so it makes no request.  Listings are never refreshed. *)
Theorem answers_are_stable (path : string) (st st1 st2 : State) :
  TerraFs.reaches net st1 st2 →
  (∀ r, TerraFs.getAttr net path st = (Ok r, st1) →
        TerraFs.getAttr net path st2 = (Ok r, st2))
  ∧ (∀ r, TerraFs.readDir net path st = (Ok r, st1) →
          TerraFs.readDir net path st2 = (Ok r, st2))
  ∧ (∀ r, TerraFs.getDirIndexEntry net path st = (Ok r, st1) →
          TerraFs.getDirIndexEntry net path st2 = (Ok r, st2)).
Proof.
  intros Hreach%reaches_extends. split; [|split]; intros r H.
  - by eapply getAttr_stable.
  - by eapply readDir_stable.
  - by eapply getDirIndexEntry_stable.
Qed.

(** X10. The cache only grows and the configuration is fixed: over any
    sequence of served requests [baseUrl] and [staticRoot] keep their values,
    every key of the cache keeps the value it was first given (a listing or
    the absent marker), and the requests made so far stay a prefix of the
    requests made. *)
Theorem cache_never_evicts (st st' : State) :
  TerraFs.reaches net st st' →
  baseUrl st' = baseUrl st
  ∧ staticRoot st' = staticRoot st
  ∧ dirIndexCache st ⊆ dirIndexCache st'
  ∧ requests st `prefix_of` requests st'.
Proof.
  intros (HB & HS & HC & HR)%reaches_extends. repeat split; try done.
  apply map_subseteq_spec. intros url v. apply HC.
Qed.

End Further.

Lemma answers_are_stable_witness :
  TerraFs.getAttr demo_net "/a.txt" demo_opened
  = (Ok (0, {| st_mode := Z.lor S_IFREG (octal 4 4 4); st_nlink := 1; st_size := 10 |}),
     demo_opened).
Proof.
  destruct (answers_are_stable demo_net "/a.txt" demo_fs
              (snd (TerraFs.getAttr demo_net "/a.txt" demo_fs)) demo_opened) as [H _].
  - eapply TerraFs.reaches_step with (r := TerraFs.Open "/a.txt" {| flags := O_RDONLY; fh := 0 |});
      [apply TerraFs.reaches_refl|vm_compute; reflexivity].
  - apply H. vm_compute. reflexivity.
Defined.

Lemma cache_never_evicts_witness :
  dirIndexCache demo_fs ⊆ dirIndexCache demo_opened
  ∧ requests demo_opened = ["http://host/.dirindex"; "http://host/a.txt"].
Proof.
  destruct (cache_never_evicts demo_net demo_fs demo_opened) as (_ & _ & H & _).
  - eapply TerraFs.reaches_step with (r := TerraFs.Open "/a.txt" {| flags := O_RDONLY; fh := 0 |});
      [apply TerraFs.reaches_refl|vm_compute; reflexivity].
  - split; [exact H|reflexivity].
Defined.

Section Requests.

Context (net : list string → string → CurlOutcome).

Ltac m_unfold :=
  unfold mbind, mret, M_bind, M_ret, get, modify, lift, Curlie.getFile in *;
  simpl in *.

Lemma requested_refl (n : nat) (st : State) : requested n st st.
Proof. exists []. rewrite app_nil_r. repeat split; [simpl; lia|constructor]. Qed.

Lemma requested_one (st : State) (path : string) (c : gmap string (option DirIndex.t)) :
  requested 1 st
    (set_dirIndexCache c (set_requests (requests st ++ [baseUrl st +:+ path]) st)).
Proof.
  exists [baseUrl st +:+ path]. repeat split; [simpl; lia|].
  constructor; [by exists path|constructor].
Qed.

Lemma requested_trans (n m : nat) (st1 st2 st3 : State) :
  requested n st1 st2 → requested m st2 st3 → requested (n + m) st1 st3.
Proof.
  intros (new1 & R1 & L1 & F1 & B1) (new2 & R2 & L2 & F2 & B2).
  exists (new1 ++ new2). rewrite R2, R1, <- (assoc_L (++)). rewrite B1 in F2.
  repeat split; [rewrite length_app; lia|by apply Forall_app|congruence].
Qed.

Lemma requested_weaken (n m : nat) (st st' : State) :
  (n ≤ m)%nat → requested n st st' → requested m st st'.
Proof. intros Hnm (new & R & L & F & B). exists new. repeat split; [done|lia|done|done]. Qed.

Lemma getDirIndex_requested (path : string) (st st' : State) (r : res (option DirIndex.t)) :
  TerraFs.getDirIndex net path st = (r, st') → requested 1 st st'.
Proof.
  destruct (dirIndexCache st !! (baseUrl st +:+ path)) as [v|] eqn:E.
  - rewrite (getDirIndex_hit _ _ _ _ E). intros [= <- <-]. apply requested_refl.
  - rewrite (getDirIndex_miss _ _ _ E). simpl. rewrite app_assoc_str.
    case_decide; [destruct (DirIndex.parse _)|]; intros [= <- <-];
      apply requested_one || apply (requested_one st _ (dirIndexCache st)).
Qed.

Lemma getDirIndexEntry_requested (path : string) (st st' : State)
    (r : res (option DirIndexEntry)) :
  TerraFs.getDirIndexEntry net path st = (r, st') → requested 1 st st'.
Proof.
  unfold TerraFs.getDirIndexEntry. destruct (find_last_of path slash) as [last|].
  - m_unfold.
    destruct (TerraFs.getDirIndex net _ st) as [[[d|]|f] st1] eqn:E;
      intros [= <- <-]; by eapply getDirIndex_requested.
  - intros [= <- <-]. apply requested_refl.
Qed.

Lemma serve_requested (r : TerraFs.request) (st st' : State) (x : res unit) :
  TerraFs.serve net r st = (x, st') →
  requested (match r with TerraFs.Open _ _ => 2 | TerraFs.Release _ _ => 0 | _ => 1 end)
    st st'.
Proof.
  destruct r as [path|path|path fi|path size offset fi|path fi];
    unfold TerraFs.serve; m_unfold.
  - unfold TerraFs.readDir. m_unfold.
    destruct (staticRoot st && bool_decide (path = "/"));
      [intros [= <- <-]; apply requested_refl|].
    destruct (TerraFs.getDirIndex net path st) as [[[d|]|f] st1] eqn:E;
      intros [= <- <-]; by eapply getDirIndex_requested.
  - unfold TerraFs.getAttr. m_unfold.
    destruct (decide (path = "/")); [intros [= <- <-]; apply requested_refl|].
    destruct (staticRoot st && _); [intros [= <- <-]; apply requested_refl|].
    destruct (TerraFs.getDirIndexEntry net path st) as [[[e|]|f] st1] eqn:E;
      [destruct (TerraFs.as_file e); [|destruct (TerraFs.as_dir e)]| |];
      intros [= <- <-]; by eapply getDirIndexEntry_requested.
  - destruct (decide (Z.land (flags fi) 3 = O_RDONLY)) as [Hf|Hf].
    + destruct (TerraFs.getDirIndexEntry net path st) as [[[e|]|f] st1] eqn:E.
      * rewrite (open_resolved _ _ _ _ _ _ Hf E). simpl.
        apply getDirIndexEntry_requested in E.
        assert (requested 1 st1 (set_requests
                  (requests st1 ++ [baseUrl st1 +:+ path]) st1)) as Hone.
        { exists [baseUrl st1 +:+ path]. repeat split; [simpl; lia|].
          constructor; [by exists path|constructor]. }
        case_decide; intros [= <- <-].
        -- by apply (requested_trans 1 1 st st1).
        -- apply (requested_trans 1 1 st st1); [done|].
           destruct Hone as (new & ? & ? & ? & ?). by exists new.
      * unfold TerraFs.open. rewrite decide_False by (by intros []). m_unfold.
        rewrite E. intros [= <- <-].
        eapply requested_weaken; [|by eapply getDirIndexEntry_requested]. lia.
      * unfold TerraFs.open. rewrite decide_False by (by intros []). m_unfold.
        rewrite E. intros [= <- <-].
        eapply requested_weaken; [|by eapply getDirIndexEntry_requested]. lia.
    + unfold TerraFs.open. rewrite decide_True by done. intros [= <- <-].
      apply requested_refl.
  - unfold TerraFs.read.
    case_decide; [intros [= <- <-]; apply requested_refl|]. m_unfold.
    destruct (TerraFs.getDirIndexEntry net path st) as [[[e|]|f] st1] eqn:E;
      [unfold deref_string; destruct (heap st1 !! fh fi);
         [destruct (TerraFs.copy_out _ _ _)|]| |];
      intros [= <- <-]; by eapply getDirIndexEntry_requested.
  - unfold TerraFs.release, delete_string. m_unfold.
    case_decide; [intros [= <- <-]; apply requested_refl|].
    destruct (heap st !! fh fi); intros [= <- <-];
      exists []; rewrite app_nil_r; by repeat split.
Qed.

(** X11. The filesystem only asks for URLs under its base URL, and only a
    few at a time: serving one request adds at most two transport requests
    for an [open] (the listing of the parent and the content), none for a
    [release] and at most one for any other call, each of them [baseUrl]
    followed by a path; hence every request added over a sequence of served
    calls is under [baseUrl]. *)
Theorem requests_stay_under_baseUrl :
  (∀ r st x st',
     TerraFs.serve net r st = (x, st') →
     requested (match r with
                | TerraFs.Open _ _ => 2 | TerraFs.Release _ _ => 0 | _ => 1
                end) st st')
  ∧ (∀ st st',
       TerraFs.reaches net st st' →
       ∃ new, requests st' = requests st ++ new
              ∧ Forall (under_base (baseUrl st)) new).
Proof.
  split; [intros r st x st'; apply serve_requested|].
  induction 1 as [|r st1 st2 Hreach (new & R & F) Hs].
  - exists []. by rewrite app_nil_r.
  - apply serve_requested in Hs as (new2 & R2 & _ & F2 & _).
    apply reaches_extends in Hreach as (HB & _).
    exists (new ++ new2). rewrite R2, R, <- (assoc_L (++)). split; [done|].
    apply Forall_app. split; [done|]. by rewrite <- HB.
Qed.

End Requests.

Lemma requests_stay_under_baseUrl_witness :
  Forall (under_base "http://host") ["http://host/.dirindex"; "http://host/a.txt"].
Proof.
  destruct (requests_stay_under_baseUrl demo_net) as [_ H].
  destruct (H demo_fs demo_opened) as (new & R & F).
  - eapply TerraFs.reaches_step with (r := TerraFs.Open "/a.txt" {| flags := O_RDONLY; fh := 0 |});
      [apply TerraFs.reaches_refl|vm_compute; reflexivity].
  - simpl in R. rewrite <- R in F. exact F.
Defined.

Section Attributes.

Context (net : list string → string → CurlOutcome).

Ltac m_unfold :=
  unfold mbind, mret, M_bind, M_ret, get, modify, lift, Curlie.getFile in *;
  simpl in *.

(** [getAttr] outside the paths it answers by itself. *)
Lemma getAttr_resolver (path : string) (st : State) :
  path ≠ "/" →
  staticRoot st && bool_decide (static_path path) = false →
  TerraFs.getAttr net path st =
    match TerraFs.getDirIndexEntry net path st with
    | (Ok (Some e), st') => (Ok (0, entry_attr e), st')
    | (Ok None, st') => (Ok (- ENOENT, zero_stat), st')
    | (Fault f, st') => (Fault f, st')
    end.
Proof.
  intros Hroot Hstatic. unfold TerraFs.getAttr. m_unfold.
  rewrite decide_False by done. unfold static_path in Hstatic. rewrite Hstatic.
  destruct (TerraFs.getDirIndexEntry net path st) as [[[e|]|f] st']; try done.
  by destruct e.
Qed.


(** X13. The static root is consistent: in static-root mode [readDir] of
    ["/"] hands out four records, and [getAttr] of ["/" + name] for each of
    them returns exactly the attributes [readDir] passed with the name, a
    directory, without a request and whatever the cache holds. *)
Theorem static_root_consistent (st : State) :
  staticRoot st = true →
  ∃ records,
    TerraFs.readDir net "/" st = (Ok (0, records), st)
    ∧ length records = 4%nat
    ∧ ∀ name s, (name, s) ∈ records →
        TerraFs.getAttr net (String slash name) st = (Ok (0, s), st)
        ∧ is_directory_mode (st_mode s)
        ∧ static_path (String slash name).
Proof.
  intros Hsr. eexists. split; [|split].
  - unfold TerraFs.readDir. m_unfold. by rewrite Hsr.
  - reflexivity.
  - intros name s Hin. unfold TerraFs.getAttr, static_path. m_unfold. rewrite Hsr.
    repeat (apply elem_of_cons in Hin as [[= -> ->]|Hin];
            [split; [reflexivity|split; [reflexivity|tauto]]|]).
    by apply elem_of_nil in Hin.
Qed.

End Attributes.


Lemma static_root_consistent_witness :
  ∃ records,
    TerraFs.readDir demo_net "/" demo_static_fs = (Ok (0, records), demo_static_fs)
    ∧ length records = 4%nat.
Proof.
  destruct (static_root_consistent demo_net demo_static_fs) as (records & H1 & H2 & _).
  - reflexivity.
  - exists records. split; [exact H1|exact H2].
Defined.

Section Handles.

Context (net : list string → string → CurlOutcome).

Ltac m_unfold :=
  unfold mbind, mret, M_bind, M_ret, get, modify, lift, Curlie.getFile in *;
  simpl in *.

(** What a successful [open] went through. *)
Lemma open_inv (path : string) (fi fi' : fuse_file_info) (st st2 : State) :
  TerraFs.open net path fi st = (Ok (0, fi'), st2) →
  ∃ st1 e,
    Z.land (flags fi) 3 = O_RDONLY
    ∧ TerraFs.getDirIndexEntry net path st = (Ok (Some e), st1)
    ∧ Curlie.status (net (requests st1) (baseUrl st1 +:+ path)) = 200
    ∧ fi' = {| flags := flags fi; fh := fresh_address st1 |}
    ∧ st2 = set_heap (<[fresh_address st1 :=
                        Curlie.written (net (requests st1) (baseUrl st1 +:+ path))]>
                        (heap st1))
              (set_requests (requests st1 ++ [baseUrl st1 +:+ path]) st1).
Proof.
  destruct (decide (Z.land (flags fi) 3 = O_RDONLY)) as [Hf|Hf].
  - destruct (TerraFs.getDirIndexEntry net path st) as [[[e|]|f] st1] eqn:E.
    + rewrite (open_resolved _ _ _ _ _ _ Hf E). simpl.
      destruct (decide (Curlie.status _ ≠ 200)) as [|Hs]; [done|].
      intros [= <- <-]. exists st1, e. repeat split; try done.
      by destruct (decide (Curlie.status (net (requests st1) (baseUrl st1 +:+ path)) = 200)).
    + unfold TerraFs.open. rewrite decide_False by (by intros []).
      m_unfold. by rewrite E.
    + unfold TerraFs.open. rewrite decide_False by (by intros []).
      m_unfold. by rewrite E.
  - unfold TerraFs.open. by rewrite decide_True by done.
Qed.

Lemma release_live (path : string) (fi : fuse_file_info) (st : State) (c : string) :
  heap st !! fh fi = Some c → fh fi ≠ 0 →
  TerraFs.release path fi st = (Ok 0, set_heap (delete (fh fi) (heap st)) st).
Proof.
  intros Hc Hnz. unfold TerraFs.release, delete_string. m_unfold.
  rewrite decide_False by done. by rewrite Hc.
Qed.

Lemma read_live (path : string) (size offset : Z) (fi : fuse_file_info)
    (st : State) (e : DirIndexEntry) (content : string) :
  Z.land (flags fi) 3 = O_RDONLY → resolved path e st →
  heap st !! fh fi = Some content →
  TerraFs.read net path size offset fi st = (TerraFs.copy_out content size offset, st).
Proof.
  intros Hf He Hc. unfold TerraFs.read. rewrite decide_False by (by intros []).
  m_unfold. rewrite (resolved_getDirIndexEntry _ _ _ _ He).
  unfold deref_string. rewrite Hc. by destruct (TerraFs.copy_out _ _ _).
Qed.

Lemma open_handle_nonnull (path : string) (p : Z) (st : State) :
  TerraFs.open_handle net path p st → p ≠ 0.
Proof.
  induction 1 as [fi fi' st st' Ho <-|]; [|done].
  apply open_inv in Ho as (st1 & e & _ & _ & _ & -> & _). simpl.
  apply fresh_address_spec.
Qed.

(** X14. A successful [open]: with read-only access, the entry found
    (file or directory alike) and status 200 for [baseUrl + path], it returns
    0 with a handle that is not null and was not in use, and the only change
    to the heap is that this handle now holds the bytes received, whatever
    size the listing declared; the content request is the last one logged. *)
Theorem open_allocates_fresh_handle (path : string) (fi : fuse_file_info)
    (st st1 : State) (e : DirIndexEntry) :
  Z.land (flags fi) 3 = O_RDONLY →
  TerraFs.getDirIndexEntry net path st = (Ok (Some e), st1) →
  Curlie.status (net (requests st1) (baseUrl st1 +:+ path)) = 200 →
  ∃ p st2,
    TerraFs.open net path fi st = (Ok (0, {| flags := flags fi; fh := p |}), st2)
    ∧ p ≠ 0 ∧ heap st !! p = None
    ∧ heap st2 = <[p := Curlie.written (net (requests st1) (baseUrl st1 +:+ path))]> (heap st)
    ∧ requests st2 = requests st1 ++ [baseUrl st1 +:+ path]
    ∧ dirIndexCache st2 = dirIndexCache st1.
Proof.
  intros Hf He Hs. rewrite (open_resolved _ _ _ _ _ _ Hf He). simpl.
  rewrite decide_False by (by intros []).
  destruct (fresh_address_spec st1) as [Hnz Hfresh].
  apply getDirIndexEntry_extends in He as [_ Hheap].
  eexists _, _. split; [done|]. simpl. rewrite <- Hheap. by repeat split.
Qed.

(** X15. [open] then [release] gives the buffer back: releasing the handle
    a successful [open] returned answers 0 and leaves the heap exactly as it
    was before the [open]; the cache and the logged requests stay as the
    [open] left them. *)
Theorem open_release_round_trip (path path' : string) (fi fi' : fuse_file_info)
    (st st2 : State) :
  TerraFs.open net path fi st = (Ok (0, fi'), st2) →
  ∃ st3,
    TerraFs.release path' fi' st2 = (Ok 0, st3)
    ∧ heap st3 = heap st
    ∧ dirIndexCache st3 = dirIndexCache st2
    ∧ requests st3 = requests st2.
Proof.
  intros Ho. apply open_inv in Ho as (st1 & e & _ & He & _ & -> & ->).
  destruct (fresh_address_spec st1) as [Hnz Hfresh].
  apply getDirIndexEntry_extends in He as [_ Hheap].
  eexists. split.
  - eapply release_live; [|done]. simpl. apply lookup_insert_eq.
  - simpl. rewrite delete_insert_id by done. by repeat split.
Qed.

(** X16. A released handle is dead: for an open handle, [release] answers
    0 and removes its buffer, leaving every other buffer as it is; after that
    a second [release] of the handle and a read-only [read] through it both
    run into the dangling pointer. *)
Theorem released_handle_is_dangling (path : string) (fi : fuse_file_info)
    (st : State) (size offset : Z) :
  TerraFs.open_handle net path (fh fi) st →
  Z.land (flags fi) 3 = O_RDONLY →
  ∃ st',
    TerraFs.release path fi st = (Ok 0, st')
    ∧ heap st' = delete (fh fi) (heap st)
    ∧ TerraFs.release path fi st' = (Fault DanglingHandle, st')
    ∧ TerraFs.read net path size offset fi st' = (Fault DanglingHandle, st').
Proof.
  intros Hopen Hf. pose proof (open_handle_nonnull _ _ _ Hopen) as Hnz.
  destruct (open_handle_inv _ _ _ _ Hopen) as [[e He] [c Hc]].
  eexists. split; [by eapply release_live|]. split; [done|]. split.
  - unfold TerraFs.release, delete_string. m_unfold.
    rewrite decide_False by done. by rewrite lookup_delete_eq.
  - unfold TerraFs.read. rewrite decide_False by (by intros []). m_unfold.
    assert (resolved path e (set_heap (delete (fh fi) (heap st)) st)) as He'
      by (by destruct He as (last & d & ? & ? & ?); exists last, d).
    rewrite (resolved_getDirIndexEntry _ _ _ _ He').
    unfold deref_string. simpl. by rewrite lookup_delete_eq.
Qed.

(** X17. [read] checks before it copies: any access mode but read-only
    gives [-EACCES] with the state untouched, even for a dead handle; and the
    path is resolved again on every read, so with read-only access a path the
    resolver does not find gives [-ENOENT] and no bytes, even when the handle
    is live. *)
Theorem read_errors :
  (∀ path size offset fi st,
     Z.land (flags fi) 3 ≠ O_RDONLY →
     TerraFs.read net path size offset fi st = (Ok (- EACCES, EmptyString), st))
  ∧ (∀ path size offset fi st st1,
       Z.land (flags fi) 3 = O_RDONLY →
       TerraFs.getDirIndexEntry net path st = (Ok None, st1) →
       TerraFs.read net path size offset fi st = (Ok (- ENOENT, EmptyString), st1)).
Proof.
  split.
  - intros path size offset fi st Hf. unfold TerraFs.read. by rewrite decide_True.
  - intros path size offset fi st st1 Hf He. unfold TerraFs.read.
    rewrite decide_False by (by intros []). m_unfold. by rewrite He.
Qed.

(** X18. Buffers come and go only through [open] and [release]: serving a
    request that returns leaves the heap as it is, except that an [open] may
    add one buffer at an address that is not null and was free, and a
    [release] removes the buffer of its handle (nothing for a null handle). *)
Theorem heap_changes_only_by_open_and_release (r : TerraFs.request) (st st' : State) :
  TerraFs.serve net r st = (Ok tt, st') →
  match r with
  | TerraFs.Open _ _ =>
      heap st' = heap st
      ∨ ∃ p c, p ≠ 0 ∧ heap st !! p = None ∧ heap st' = <[p := c]> (heap st)
  | TerraFs.Release _ fi =>
      heap st' = (if decide (fh fi = 0) then heap st else delete (fh fi) (heap st))
  | _ => heap st' = heap st
  end.
Proof.
  destruct r as [path|path|path fi|path size offset fi|path fi];
    unfold TerraFs.serve; m_unfold.
  - destruct (TerraFs.readDir net path st) as [[?|?] st1] eqn:E; intros [= <-].
    by apply readDir_extends in E as [_ ?].
  - destruct (TerraFs.getAttr net path st) as [[?|?] st1] eqn:E; intros [= <-].
    by apply getAttr_extends in E as [_ ?].
  - destruct (TerraFs.open net path fi st) as [[[ret fi']|?] st1] eqn:E; intros [= <-].
    destruct (decide (Z.land (flags fi) 3 = O_RDONLY)) as [Hf|Hf].
    + destruct (TerraFs.getDirIndexEntry net path st) as [[[e|]|f] st0] eqn:Ee.
      * rewrite (open_resolved _ _ _ _ _ _ Hf Ee) in E. simpl in E.
        destruct (fresh_address_spec st0) as [Hnz Hfresh].
        apply getDirIndexEntry_extends in Ee as [_ Hheap].
        case_decide; simplify_eq; simpl; [by left|].
        right. eexists _, _. rewrite <- Hheap. by repeat split.
      * revert E. unfold TerraFs.open. rewrite decide_False by (by intros []).
        m_unfold. rewrite Ee. intros [= <- <- <-].
        left. by apply getDirIndexEntry_extends in Ee as [_ ?].
      * revert E. unfold TerraFs.open. rewrite decide_False by (by intros []).
        m_unfold. by rewrite Ee.
    + revert E. unfold TerraFs.open. rewrite decide_True by done.
      intros [= <- <- <-]. by left.
  - destruct (TerraFs.read net path size offset fi st) as [[?|?] st1] eqn:E; intros [= <-].
    by apply read_extends in E as [_ ?].
  - unfold TerraFs.release, delete_string. m_unfold.
    case_decide; [by intros [= <-]|].
    by destruct (heap st !! fh fi); intros [= <-].
Qed.

End Handles.

Lemma open_allocates_fresh_handle_witness :
  ∃ p st2,
    TerraFs.open demo_net "/a.txt" {| flags := 0; fh := 0 |} demo_fs
    = (Ok (0, {| flags := 0; fh := p |}), st2)
    ∧ p ≠ 0 ∧ heap st2 = <[p := "0123456789"]> (heap demo_fs).
Proof.
  destruct (open_allocates_fresh_handle demo_net "/a.txt" {| flags := 0; fh := 0 |}
              demo_fs (snd (TerraFs.getDirIndexEntry demo_net "/a.txt" demo_fs))
              (FileDirIndexEntry "a.txt" 10))
    as (p & st2 & H1 & H2 & _ & H3 & _).
  - reflexivity.
  - vm_compute. reflexivity.
  - vm_compute. reflexivity.
  - exists p, st2. split; [exact H1|]. split; [exact H2|exact H3].
Defined.

Lemma open_release_round_trip_witness :
  ∃ st3, TerraFs.release "/a.txt" demo_fi demo_opened = (Ok 0, st3)
         ∧ heap st3 = heap demo_fs.
Proof.
  destruct (open_release_round_trip demo_net "/a.txt" "/a.txt"
              {| flags := O_RDONLY; fh := 0 |} demo_fi demo_fs demo_opened)
    as (st3 & H1 & H2 & _).
  - vm_compute. reflexivity.
  - exists st3. split; [exact H1|exact H2].
Defined.

Lemma released_handle_is_dangling_witness :
  ∃ st', TerraFs.release "/a.txt" demo_fi demo_opened = (Ok 0, st')
         ∧ TerraFs.read demo_net "/a.txt" 4 0 demo_fi st' = (Fault DanglingHandle, st').
Proof.
  destruct (released_handle_is_dangling demo_net "/a.txt" demo_fi demo_opened 4 0)
    as (st' & H1 & _ & _ & H2).
  - eapply TerraFs.handle_opened with (fi := {| flags := O_RDONLY; fh := 0 |})
                                     (st := demo_fs);
      [vm_compute; reflexivity|reflexivity].
  - reflexivity.
  - exists st'. split; [exact H1|exact H2].
Defined.

Lemma read_errors_witness :
  TerraFs.read demo_net "/a.txt" 4 0 {| flags := 2; fh := 0 |} demo_fs
  = (Ok (- EACCES, EmptyString), demo_fs)
  ∧ fst (TerraFs.read demo_net "/other.txt" 4 0 demo_fi demo_opened)
    = Ok (- ENOENT, EmptyString).
Proof.
  destruct (read_errors demo_net) as [Hacc Hnone]. split.
  - apply Hacc. vm_compute. discriminate.
  - erewrite Hnone; [reflexivity|reflexivity|]. vm_compute. reflexivity.
Defined.

Lemma heap_changes_only_by_open_and_release_witness :
  heap (snd (TerraFs.getAttr demo_net "/a.txt" demo_opened)) = heap demo_opened.
Proof.
  apply (heap_changes_only_by_open_and_release demo_net (TerraFs.GetAttr "/a.txt")
           demo_opened (snd (TerraFs.getAttr demo_net "/a.txt" demo_opened))).
  vm_compute. reflexivity.
Defined.

(** * Further properties of [read] *)

Lemma drop_str_nil (n : nat) : drop_str n EmptyString = EmptyString.
Proof. by destruct n. Qed.

Lemma drop_str_add (a b : nat) (s : string) :
  drop_str (a + b) s = drop_str b (drop_str a s).
Proof.
  revert s. induction a as [|a IH]; intros s; simpl; [by destruct s|].
  destruct s as [|c s]; [by rewrite drop_str_nil|]. apply IH.
Qed.

Lemma take_str_add (a b : nat) (s : string) :
  take_str (a + b) s = take_str a s +:+ take_str b (drop_str a s).
Proof.
  revert s. induction a as [|a IH]; intros s; simpl; [by destruct s|].
  destruct s as [|c s]; simpl; [by destruct b|]. by rewrite IH.
Qed.

Lemma substr_add (s : string) (pos a b : nat) :
  substr s pos (a + b) = substr s pos a +:+ substr s (pos + a) b.
Proof. unfold substr. by rewrite take_str_add, drop_str_add. Qed.

Lemma substr_whole (s : string) : substr s 0 (String.length s) = s.
Proof. unfold substr. destruct s; simpl; [done|]. by rewrite take_str_all. Qed.

Section Reads.

Context (net : list string → string → CurlOutcome).

(** X19. Reading in consecutive blocks gives what one read of the whole
    range gives: for an open handle, a read-only read of [s1] bytes at [o]
    followed by one of [s2] bytes at [o + s1] copies, put together, exactly
    the bytes a single read of [s1 + s2] bytes at [o] copies (offsets and
    sizes non-negative, the range within [size_t]); no state changes. *)
Theorem read_in_blocks (path : string) (fi : fuse_file_info) (st : State)
    (content : string) (o s1 s2 : Z) :
  TerraFs.open_handle net path (fh fi) st →
  heap st !! fh fi = Some content →
  Z.land (flags fi) 3 = O_RDONLY →
  0 ≤ o → 0 ≤ s1 → 0 ≤ s2 → o + s1 + s2 < 2 ^ 64 →
  ∃ n1 b1 n2 b2 n,
    TerraFs.read net path s1 o fi st = (Ok (n1, b1), st)
    ∧ TerraFs.read net path s2 (o + s1) fi st = (Ok (n2, b2), st)
    ∧ TerraFs.read net path (s1 + s2) o fi st = (Ok (n, b1 +:+ b2), st).
Proof.
  intros Hopen Hc Hf Ho H1 H2 Hsum.
  destruct (open_handle_inv _ _ _ _ Hopen) as [[e He] _].
  rewrite !(read_live _ _ _ _ _ _ e content) by done.
  rewrite !copy_out_in_range by lia. simpl.
  eexists _, _, _, _, _. split; [done|]. split; [done|]. do 3 f_equal.
  set (L := Z.of_nat (String.length content)).
  destruct (decide (L ≤ o)) as [Hge|Hlt].
  - rewrite (decide_True (P := L ≤ o + s1)) by lia. done.
  - destruct (decide (L ≤ o + s1)) as [Hge1|Hlt1].
    + rewrite (Z.min_r s1), (Z.min_r (s1 + s2)) by lia. simpl.
      by rewrite app_empty_r.
    + rewrite (Z.min_l s1) by lia.
      replace ((s1 + s2) `min` (L - o)) with (s1 + s2 `min` (L - (o + s1))) by lia.
      rewrite !Z2Nat.inj_add by lia. apply substr_add.
Qed.

(** X20. A reader that asks for at least the length of the buffer at
    offset 0 gets the whole content of the open file in one read, and a read
    at the end of the buffer returns 0 with no bytes: end of file. *)
Theorem read_whole_file (path : string) (fi : fuse_file_info) (st : State)
    (content : string) (size : Z) :
  TerraFs.open_handle net path (fh fi) st →
  heap st !! fh fi = Some content →
  Z.land (flags fi) 3 = O_RDONLY →
  Z.of_nat (String.length content) ≤ size → size < 2 ^ 63 →
  TerraFs.read net path size 0 fi st
  = (Ok (to_int (Z.of_nat (String.length content)), content), st)
  ∧ TerraFs.read net path size (Z.of_nat (String.length content)) fi st
    = (Ok (0, EmptyString), st).
Proof.
  intros Hopen Hc Hf Hsize Hmax.
  destruct (open_handle_inv _ _ _ _ Hopen) as [[e He] _].
  rewrite !(read_live _ _ _ _ _ _ e content) by done.
  rewrite !copy_out_in_range by lia. simpl. split.
  - destruct (decide (Z.of_nat (String.length content) ≤ 0)) as [H0|H0].
    + destruct content; [done|simpl in H0; lia].
    + rewrite Z.sub_0_r, Z.min_r, Nat2Z.id by lia. by rewrite substr_whole.
  - rewrite decide_True by lia. done.
Qed.

(** X21. A negative offset reads nothing: converted to [size_t] it lies
    beyond every buffer (a string is shorter than [2^63] bytes), so a
    read-only read on an open handle returns 0 and copies no byte, for any
    size. *)
Theorem read_negative_offset (path : string) (fi : fuse_file_info) (st : State)
    (content : string) (size offset : Z) :
  TerraFs.open_handle net path (fh fi) st →
  heap st !! fh fi = Some content →
  Z.land (flags fi) 3 = O_RDONLY →
  Z.of_nat (String.length content) < 2 ^ 63 →
  - 2 ^ 63 ≤ offset < 0 →
  TerraFs.read net path size offset fi st = (Ok (0, EmptyString), st).
Proof.
  intros Hopen Hc Hf Hlen Ho.
  destruct (open_handle_inv _ _ _ _ Hopen) as [[e He] _].
  rewrite (read_live _ _ _ _ _ _ e content) by done.
  unfold TerraFs.copy_out, to_size_t.
  replace (offset `mod` 2 ^ 64) with (offset + 2 ^ 64).
  - rewrite decide_False by lia. done.
  - replace offset with ((offset + 2 ^ 64) + (-1) * 2 ^ 64) at 2 by lia.
    rewrite Z_mod_plus_full. by rewrite Z.mod_small by lia.
Qed.

End Reads.

Lemma read_in_blocks_witness :
  ∃ n1 b1 n2 b2 n,
    TerraFs.read demo_net "/a.txt" 4 0 demo_fi demo_opened = (Ok (n1, b1), demo_opened)
    ∧ TerraFs.read demo_net "/a.txt" 8 4 demo_fi demo_opened = (Ok (n2, b2), demo_opened)
    ∧ TerraFs.read demo_net "/a.txt" 12 0 demo_fi demo_opened
      = (Ok (n, b1 +:+ b2), demo_opened).
Proof.
  apply (read_in_blocks demo_net "/a.txt" demo_fi demo_opened "0123456789" 0 4 8).
  - eapply TerraFs.handle_opened with (fi := {| flags := O_RDONLY; fh := 0 |})
                                     (st := demo_fs);
      [vm_compute; reflexivity|reflexivity].
  - vm_compute. reflexivity.
  - reflexivity.
  - lia.
  - lia.
  - lia.
  - lia.
Defined.

Lemma read_whole_file_witness :
  TerraFs.read demo_net "/a.txt" 4096 0 demo_fi demo_opened
  = (Ok (10, "0123456789"), demo_opened).
Proof.
  destruct (read_whole_file demo_net "/a.txt" demo_fi demo_opened "0123456789" 4096)
    as [H _].
  - eapply TerraFs.handle_opened with (fi := {| flags := O_RDONLY; fh := 0 |})
                                     (st := demo_fs);
      [vm_compute; reflexivity|reflexivity].
  - vm_compute. reflexivity.
  - reflexivity.
  - simpl. lia.
  - lia.
  - exact H.
Defined.

Lemma read_negative_offset_witness :
  TerraFs.read demo_net "/a.txt" 4 (-1) demo_fi demo_opened
  = (Ok (0, EmptyString), demo_opened).
Proof.
  apply (read_negative_offset demo_net "/a.txt" demo_fi demo_opened "0123456789" 4 (-1)).
  - eapply TerraFs.handle_opened with (fi := {| flags := O_RDONLY; fh := 0 |})
                                     (st := demo_fs);
      [vm_compute; reflexivity|reflexivity].
  - vm_compute. reflexivity.
  - reflexivity.
  - simpl. lia.
  - lia.
Defined.

(** * From the served listing to the attributes *)

Lemma getName_entry_of_record (r : listing_record) :
  getName (entry_of_record r) = record_name r.
Proof. by destruct r. Qed.

Lemma top_level_not_root (dir name : string) :
  name ≠ EmptyString → dir +:+ String slash name ≠ "/".
Proof.
  intros Hne. destruct dir as [|c dir]; simpl.
  - intros [= ->]. done.
  - intros [= _ H]. by destruct dir.
Qed.

Section Served.

Context (net : list string → string → CurlOutcome).

(** X22. End to end, from the text on the server to [getAttr]: without
    static-root mode, when the listing of [dir] is not cached yet and the
    server answers 200 with the rendering of records with distinct names,
    [getAttr] of [dir/name] for a record of the listing whose name holds no
    ['/'] makes exactly one request, for the listing, caches it, and returns
    the attributes of the record: a regular read-only file with the size
    written in the listing (modulo [2^32]), or a directory. *)
Theorem served_listing_gives_attributes (dir : string) (st : State)
    (rs : list listing_record) (r : listing_record) :
  staticRoot st = false →
  dirIndexCache st !! (baseUrl st +:+ dir) = None →
  net (requests st) ((baseUrl st +:+ dir) +:+ "/.dirindex") = Completed 200 (render rs) →
  Forall record_ok rs →
  NoDup (record_name <$> rs) →
  r ∈ rs →
  ¬ occurs slash (record_name r) →
  ∃ st',
    TerraFs.getAttr net (dir +:+ String slash (record_name r)) st
    = (Ok (0, entry_attr (entry_of_record r)), st')
    ∧ requests st' = requests st ++ [(baseUrl st +:+ dir) +:+ "/.dirindex"]
    ∧ dirIndexCache st' !! (baseUrl st +:+ dir)
      = Some (Some {| DirIndex.version := None; DirIndex.path := EmptyString;
                      DirIndex.entries := entry_of_record <$> rs |}).
Proof.
  intros Hsr Hmiss Hnet Hok Hnd Hin Hslash.
  assert (record_name r ≠ EmptyString) as Hne.
  { eapply Forall_forall in Hok as (? & _); done. }
  rewrite getAttr_resolver;
    [|by apply top_level_not_root|by rewrite Hsr].
  rewrite getDirIndexEntry_split by done.
  rewrite (getDirIndex_miss _ _ _ Hmiss). simpl. rewrite Hnet. simpl.
  rewrite parse_rendered_text by done.
  unfold DirIndex.find. simpl.
  rewrite <- getName_entry_of_record. rewrite find_in_NoDup.
  - eexists. split; [done|]. simpl. split; [done|]. by rewrite lookup_insert_eq.
  - rewrite <- list_fmap_compose.
    erewrite list_fmap_ext; [exact Hnd|]. intros i x _. apply getName_entry_of_record.
  - by apply list_elem_of_fmap_2.
Qed.

End Served.

Lemma served_listing_gives_attributes_witness :
  ∃ st',
    TerraFs.getAttr (λ _ _, Completed 200 (render [RecDir "Sub"; RecFile "a.txt" "42"]))
      "/Sub/a.txt" demo_fs
    = (Ok (0, {| st_mode := Z.lor S_IFREG (octal 4 4 4); st_nlink := 1; st_size := 42 |}),
       st')
    ∧ requests st' = ["http://host/Sub/.dirindex"].
Proof.
  destruct (served_listing_gives_attributes
              (λ _ _, Completed 200 (render [RecDir "Sub"; RecFile "a.txt" "42"]))
              "/Sub" demo_fs [RecDir "Sub"; RecFile "a.txt" "42"] (RecFile "a.txt" "42"))
    as (st' & H1 & H2 & _).
  - reflexivity.
  - vm_compute. reflexivity.
  - reflexivity.
  - repeat constructor; simpl; try discriminate; try (intuition discriminate).
  - refine (bool_decide_unpack _ _). vm_compute. exact I.
  - apply list_elem_of_further, list_elem_of_here.
  - simpl. intuition discriminate.
  - exists st'. split; [exact H1|exact H2].
Defined.

(** * Malformed listings *)

Section Malformed.

Context (net : list string → string → CurlOutcome).


End Malformed.

